(** * pyama_squares: squared bounding boxes drawn into mask stacks

    A shallow embedding of [pyama_squares.py] and the properties of its
    placement logic ([insert_bb]), its compositor
    ([varying_margins_centered]), its empty-site synthesizer
    ([make_empty_bboxes]) and the per-file loop of [main].

    Conventions of the embedding.
    - Python [int] is [Z]; [//] on integers is [Z.div] (both floor).
    - Python and NumPy floats are exact rationals [Q]: [np.rint] is rounding
      half to even, and [np.rint(np.sqrt(a))] is computed exactly from [a].
      The doubles of the code round after every operation, so the rounded
      values agree with the exact ones unless the exact value lies within
      the error of a double of a tie. A statement that asserts the value of
      a rounding carries that as a hypothesis ([doubles_exact]) or is about
      values that doubles hold exactly; the other statements take the
      rounded side or size as it was computed.
    - A NaN or an infinity (square root of a negative number, division by a
      zero width) has no rational value; where one would reach a box field
      or an integer cast the model stops with [FloatInvalid]. The code goes
      on with the NaN there, so [FloatInvalid] marks a run that the model
      does not follow further.
    - NumPy integers are [Z]: the extents of [insert_bb] are taken as
      computed, within the range of [np.int64].
    - A [dict] is an association list in insertion order.
    - A NumPy array of shape (n_frames, height, width) is a list of frames,
      each a list of rows, each a list of pixels, with its height and width.
    - [print(..., file=sys.stderr)] and [np.savez_compressed] are events of a
      trace; a raised exception ends a computation and keeps the trace. *)

From Stdlib Require Import ZArith QArith Qround Lia Lqa Ascii.
From stdpp Require Import base list strings pretty.

Local Open Scope Z_scope.

(** ** Rounding *)

(** [np.rint] on an exact value: nearest integer, ties to the even one. *)
Definition rint (q : Q) : Z :=
  let n := Qnum q in
  let d := Zpos (Qden q) in
  let fl := n / d in
  match 2 * (n mod d) ?= d with
  | Lt => fl
  | Gt => fl + 1
  | Eq => if Z.even fl then fl else fl + 1
  end.

(** [np.rint(np.sqrt(q)).astype(int)]: the integer nearest to the square
    root, ties to even; [None] for a negative [q] (NaN). With
    [n = floor (sqrt q)], the root is compared with [n + 1/2] through
    [4 q] against [(2 n + 1)^2]. The root is the exact one: [np.sqrt]
    rounds it to a double first, which gives another integer when [q] is
    within a few units of the last place of [(n + 1/2)^2], and the cast
    needs the root below 2^63. *)
Definition rint_sqrt (q : Q) : option Z :=
  if Qnum q <? 0 then None
  else
    let d := Zpos (Qden q) in
    let n := Z.sqrt (Qnum q / d) in
    Some match 4 * Qnum q ?= (2 * n + 1) ^ 2 * d with
         | Lt => n
         | Gt => n + 1
         | Eq => if Z.even n then n else n + 1
         end.

(** ** Data model *)

Record BoundingBox := {
  x_min : Z; x_max : Z; y_min : Z; y_max : Z;
  x_mean : Q; y_mean : Q;
  area : Q
}.

(** The keys of a track: a frame index, [None], or [...] (Ellipsis). *)
Inductive frame_key := FrNone | FrEllipsis | FrInt (i : Z).

(** The entry stored under the ROI name [None]. *)
Record StackMeta := { n_frames : Z; width : Z; height : Z }.

Inductive roi :=
| Meta (m : StackMeta)
| Track (tr : list (frame_key * BoundingBox)).

(** ROI names: [None] is Python's [None], other names are integers. *)
Abbreviation collection := (list (option Z * roi)).

Record ndarray := {
  hgt : Z;
  wid : Z;
  frames : list (list (list Z))
}.

Definition shape (s : ndarray) : Z * Z * Z :=
  (Z.of_nat (length (frames s)), hgt s, wid s).

Definition pixel (s : ndarray) (f y x : nat) : option Z :=
  frames s !! f ≫= λ fr, fr !! y ≫= λ row, row !! x.

(** Every frame has [hgt] rows and every row [wid] pixels. *)
Definition wf_stack (s : ndarray) : Prop :=
  0 <= hgt s ∧ 0 <= wid s ∧
  Forall (λ fr, length fr = Z.to_nat (hgt s) ∧
                Forall (λ row, length row = Z.to_nat (wid s)) fr) (frames s).

(** ** Exceptions and effects *)

(** [OSError] stands for what opening and unpickling a file can raise; it
    comes from [read_bboxes] only. *)
Inductive exn :=
  KeyError | IndexError | TypeError | ValueError | FloatInvalid | OSError.

Inductive result (A : Type) :=
| OK (a : A)
| Raise (e : exn).
Arguments OK {A} a.
Arguments Raise {A} e.

Inductive event :=
| Stderr (line : string)
| Savez (p : string) (margin : Q) (stack : ndarray).

(** A computation: the events it emitted and how it ended. *)
Definition M (A : Type) : Type := list event * result A.

Definition ret {A} (a : A) : M A := ([], OK a).
Definition raise {A} (e : exn) : M A := ([], Raise e).
Definition emit (ev : event) : M unit := ([ev], OK tt).

Definition bind {A B} (m : M A) (k : A → M B) : M B :=
  match m with
  | (tr, OK a) => let '(tr', r) := k a in (tr ++ tr', r)
  | (tr, Raise e) => (tr, Raise e)
  end.

Notation "x <- c1 ;; c2" := (bind c1 (λ x, c2))
  (at level 100, c1 at next level, right associativity).
Notation "c1 ;;; c2" := (bind c1 (λ _, c2))
  (at level 100, right associativity).

(** [for x in xs: acc = body(acc, x)], stopping at the first exception. *)
Fixpoint foldM {A B} (body : A → B → M A) (acc : A) (xs : list B) : M A :=
  match xs with
  | [] => ret acc
  | x :: xs' => acc' <- body acc x;; foldM body acc' xs'
  end.

(** ** NumPy indexing *)

(** A slice bound on an axis of length [n], as Python adjusts it: a negative
    bound counts from the end, and the result is clipped to [0, n]. *)
Definition adjust (n i : Z) : Z :=
  if i <? 0 then Z.max 0 (i + n) else Z.min i n.

(** Whether index [i] of an axis of length [n] is selected by [a:b]. *)
Definition in_slice (n a b : Z) (i : nat) : bool :=
  (adjust n a <=? Z.of_nat i) && (Z.of_nat i <? adjust n b).

(** The first index of [stack[frame, ..., y1:y2, x1:x2]]. *)
Inductive selector := SliceAll | Index (i : Z).

Definition fill_row (s : ndarray) (x1 x2 val : Z) (row : list Z) : list Z :=
  imap (λ x v, if in_slice (wid s) x1 x2 x then val else v) row.

Definition fill_frame (s : ndarray) (y1 y2 x1 x2 val : Z)
    (fr : list (list Z)) : list (list Z) :=
  imap (λ y row, if in_slice (hgt s) y1 y2 y then fill_row s x1 x2 val row
                 else row) fr.

Definition with_frames (s : ndarray) (fs : list (list (list Z))) : ndarray :=
  {| hgt := hgt s; wid := wid s; frames := fs |}.

(** [stack[frame, ..., y1:y2, x1:x2] = val]. An integer frame outside
    [-n, n) raises IndexError; a negative one counts from the end. *)
Definition setitem (s : ndarray) (frame : selector) (y1 y2 x1 x2 val : Z)
    : M ndarray :=
  let n := Z.of_nat (length (frames s)) in
  match frame with
  | SliceAll => ret (with_frames s (fill_frame s y1 y2 x1 x2 val <$> frames s))
  | Index i =>
      if (i <? - n) || (n <=? i) then raise IndexError
      else
        let j := Z.to_nat (if i <? 0 then i + n else i) in
        ret (with_frames s (alter (fill_frame s y1 y2 x1 x2 val) j (frames s)))
  end.

(** [np.zeros((n_frames, height, width), dtype=np.uint8)]. *)
Definition zeros (n h w : Z) : M ndarray :=
  if (n <? 0) || (h <? 0) || (w <? 0) then raise ValueError
  else ret {| hgt := h; wid := w;
              frames := replicate (Z.to_nat n)
                          (replicate (Z.to_nat h) (replicate (Z.to_nat w) 0)) |}.

(** ** insert_bb *)

(** Lines 93-99: the box's own size and the requested size. *)
Definition bb_size (bb : BoundingBox) (bb_width bb_height : option Z)
    : Z * Z * Z * Z :=
  let w := x_max bb - x_min bb + 1 in
  let h := y_max bb - y_min bb + 1 in
  (w, h, default w bb_width, default h bb_height).

(** Lines 103-112: the extents of the square before the border check, in
    [Z]. In centroid-weighted mode the code holds them in [np.int64]. *)
Definition extents (bb : BoundingBox) (bb_width bb_height : option Z)
    (weighted : bool) : Z * Z * Z * Z :=
  let '(w, h, bb_width, bb_height) := bb_size bb bb_width bb_height in
  if weighted then
    let x1 := rint (x_mean bb) - bb_width / 2 in
    let x2 := x1 + bb_width in
    let y1 := rint (y_mean bb) - bb_height / 2 in
    let y2 := y1 + bb_height in
    (x1, x2, y1, y2)
  else
    let x1 := x_min bb - (bb_width - w) / 2 in
    let x2 := x1 + bb_width in
    let y1 := y_min bb - (bb_height - h) / 2 in
    let y2 := y1 + bb_height in
    (x1, x2, y1, y2).

(** Line 100: [None] and [...] both select all frames. *)
Definition frame_selector (frame : frame_key) : selector :=
  match frame with
  | FrNone | FrEllipsis => SliceAll
  | FrInt i => Index i
  end.

(** Line 115. *)
Definition hits_border (x1 x2 y1 y2 width height : Z) : bool :=
  (x1 <? 0) || (x2 >? width) || (y1 <? 0) || (y2 >? height).

(** Lines 116-121; the branch for [...] is never reached, since line 100
    has replaced it by a slice. *)
Definition frame_name (frame : selector) : string :=
  match frame with
  | SliceAll => ":"
  | Index i => pretty (i + 1)
  end.

(** Line 126. *)
Definition border_message (msg : string) (x1 x2 y1 y2 : Z) (fname : string)
    (bb_width bb_height : Z) : string :=
  msg +:+ " box (x=" +:+ pretty x1 +:+ ":" +:+ pretty x2
      +:+ ", y=" +:+ pretty y1 +:+ ":" +:+ pretty y2
      +:+ ")[" +:+ fname +:+ "] that hits border (w=" +:+ pretty bb_width
      +:+ ", h=" +:+ pretty bb_height +:+ ")".

(** Lines 129-136. *)
Definition clamp (x1 x2 y1 y2 width height : Z) : Z * Z * Z * Z :=
  let x1 := if x1 <? 0 then 0 else x1 in
  let x2 := if x2 >? width then width else x2 in
  let y1 := if y1 <? 0 then 0 else y1 in
  let y2 := if y2 >? height then height else y2 in
  (x1, x2, y1, y2).

(** The stack is mutated in place by the source; here the stack after the
    call is returned. *)
Definition insert_bb (stack : ndarray) (bb : BoundingBox)
    (bb_width bb_height : option Z) (frame : frame_key)
    (weighted ignore_borders : bool) : M ndarray :=
  let '(_, _, bb_width', bb_height') := bb_size bb bb_width bb_height in
  let frame := frame_selector frame in
  let '(x1, x2, y1, y2) := extents bb bb_width bb_height weighted in
  let height := hgt stack in
  let width := wid stack in
  if hits_border x1 x2 y1 y2 width height then
    let msg := if ignore_borders then "INCLUDE" else "EXCLUDE" in
    emit (Stderr (border_message msg x1 x2 y1 y2 (frame_name frame)
                    bb_width' bb_height'));;;
    if negb ignore_borders then ret stack
    else
      let '(x1, x2, y1, y2) := clamp x1 x2 y1 y2 width height in
      setitem stack frame y1 y2 x1 x2 2
  else
    setitem stack frame y1 y2 x1 x2 1.

(** ** varying_margins_centered *)

Fixpoint mapM {A B} (f : A → M B) (xs : list A) : M (list B) :=
  match xs with
  | [] => ret []
  | x :: xs' => y <- f x;; ys <- mapM f xs';; ret (y :: ys)
  end.

(** [d[k]] on a collection: the entry of the first matching name. *)
Fixpoint dict_get (k : option Z) (d : collection) : option roi :=
  match d with
  | [] => None
  | (k', v) :: d' => if decide (k' = k) then Some v else dict_get k d'
  end.

(** [stacks[margin] = v]: float keys that compare equal are one key. *)
Fixpoint dict_set (k : Q) (v : ndarray) (d : list (Q * ndarray))
    : list (Q * ndarray) :=
  match d with
  | [] => [(k, v)]
  | (k', v') :: d' =>
      if Qeq_bool k' k then (k', v) :: d' else (k', v') :: dict_set k v d'
  end.

(** Lines 145-147: the metadata is read from the first collection. A track
    stored under [None] has no key 'n_frames'. *)
Definition stack_meta (bboxes : list collection) : M StackMeta :=
  match bboxes with
  | [] => raise IndexError
  | first :: _ =>
      match dict_get None first with
      | Some (Meta m) => ret m
      | Some (Track _) => raise KeyError
      | None => raise KeyError
      end
  end.

(** Lines 148-150. *)
Definition alloc_stacks (m : StackMeta) (margins : list Q)
    : M (list (Q * ndarray)) :=
  foldM (λ stacks margin,
           s <- zeros (n_frames m) (height m) (width m);;
           ret (dict_set margin s stacks))
        [] margins.

(** Line 152: the items of every collection that is not empty. *)
Definition items (bboxes : list collection) : list (option Z * roi) :=
  concat (filter (λ bbx, bbx ≠ []) bboxes).

(** Line 158. For a negative effective area the root is a NaN, which the
    code casts to an integer; the cast of NaN is where the model stops. *)
Definition bb_length (area margin : Q) : M Z :=
  let x := (1 + margin)%Q in
  match rint_sqrt (x * area) with
  | Some l => ret l
  | None => raise FloatInvalid
  end.

(** Lines 160-163: only the key [...] is skipped. *)
Definition draw_frames (ignore_borders : bool) (l : Z) (stack : ndarray)
    (tr : list (frame_key * BoundingBox)) : M ndarray :=
  foldM (λ stack '(fr, bb),
           match fr with
           | FrEllipsis => ret stack
           | _ => insert_bb stack bb (Some l) (Some l) fr true ignore_borders
           end)
        stack tr.

(** Lines 156-163 for one margin. The items of a metadata dict are
    (string, int) pairs, and [insert_bb] subscripts the int: TypeError. *)
Definition draw_margin (area : Q) (ignore_borders : bool) (tr : roi)
    (ms : Q * ndarray) : M (Q * ndarray) :=
  let '(margin, stack) := ms in
  l <- bb_length area margin;;
  match tr with
  | Meta _ => raise TypeError
  | Track t => stack' <- draw_frames ignore_borders l stack t;;
               ret (margin, stack')
  end.

(** Lines 152-163 for one item. *)
Definition draw_roi (area : Q) (ignore_borders : bool)
    (stacks : list (Q * ndarray)) (it : option Z * roi)
    : M (list (Q * ndarray)) :=
  let '(k, tr) := it in
  match k with
  | None => ret stacks
  | Some _ => mapM (draw_margin area ignore_borders tr) stacks
  end.

Definition varying_margins_centered (area : Q) (bboxes : list collection)
    (margins : list Q) (ignore_borders : bool) : M (list (Q * ndarray)) :=
  m <- stack_meta bboxes;;
  stacks <- alloc_stacks m margins;;
  foldM (draw_roi area ignore_borders) stacks (items bboxes).

(** ** make_empty_bboxes *)

(** What iterating over the argument [coords] yields: a coordinate pair, or
    a key when the argument is a dict. *)
Inductive item := Coord (cx cy : Z) | Key (k : option Z).

Definition enumerate {A} (l : list A) : list (nat * A) := imap pair l.

(** Lines 57-58: [w] and [h]; [None] when [w] is NaN or [area / w] divides
    by zero, where the code goes on with an infinite [h]. *)
Definition empty_size (area : Q) : option (Z * Z) :=
  w ← rint_sqrt area;
  if w =? 0 then None else Some (w, rint (area / inject_Z w)).

(** Lines 64-77 for one coordinate. [c[0]] on an integer key raises
    TypeError. The extents of the box are integer-valued floats; without
    a size the code stores NaN in the box, and the model stops. *)
Definition empty_bbox (area : Q) (ic : nat * item) : M (option Z * roi) :=
  let '(i, c) := ic in
  match c with
  | Key _ => raise TypeError
  | Coord cx cy =>
      match empty_size area with
      | None => raise FloatInvalid
      | Some (w, h) =>
          let w2 := w / 2 in
          let h2 := h / 2 in
          let x1 := rint (inject_Z cx - inject_Z w2) in
          let y1 := rint (inject_Z cy - inject_Z h2) in
          let x2 := x1 + w in
          let y2 := y1 + h in
          ret (Some (Z.of_nat i),
               Track [(FrNone,
                       {| x_min := x1; x_max := x2;
                          x_mean := (inject_Z (x1 + x2) / 2)%Q;
                          y_min := y1; y_max := y2;
                          y_mean := (inject_Z (y1 + y2) / 2)%Q;
                          area := inject_Z (w * h) |})])
      end
  end.

(** The keys [i] are distinct: every assignment [bboxes[i] = ...] adds an
    entry. *)
Definition make_empty_bboxes (coords : list item) (area : Q) : M collection :=
  mapM (empty_bbox area) (enumerate coords).

(** ** main *)

(** The values the variable [empty] of [main] takes. *)
Inductive pyval :=
| PyNone
| PyCoords (cs : list (Z * Z))
| PyDict (d : collection).

Definition truthy (v : pyval) : bool :=
  match v with
  | PyNone => false
  | PyCoords cs => bool_decide (cs ≠ [])
  | PyDict d => bool_decide (d ≠ [])
  end.

(** Iterating over a list gives its elements, over a dict its keys. *)
Definition iterate (v : pyval) : M (list item) :=
  match v with
  | PyNone => raise TypeError
  | PyCoords cs => ret ((λ c, Coord c.1 c.2) <$> cs)
  | PyDict d => ret ((λ kv, Key kv.1) <$> d)
  end.

(** [empty] as the second collection of [varying_margins_centered]: a value
    that is not truthy is skipped there. *)
Definition as_collection (v : pyval) : collection :=
  match v with
  | PyDict d => d
  | _ => []
  end.

Definition lift {A} (r : result A) : M A := ([], r).

(** Lines 182-186: one file per stack. The file name, derived from [fn]
    and the margin, is not computed, and the line on stdout is left out. *)
Definition export_squares (stacks : list (Q * ndarray)) (fn : string)
    : M unit :=
  foldM (λ _ '(margin, stack), emit (Savez fn margin stack)) tt stacks.

Section Main.
(** The pickled content of each path. *)
Variable read_bboxes : string → result collection.

(** Lines 287-291: one turn of the loop. The assignment to [empty] is
    kept for the next turn. *)
Definition main_step (area : Q) (margin : list Q) (ignore_borders : bool)
    (empty : pyval) (p : string) : M pyval :=
  bboxes <- lift (read_bboxes p);;
  empty <- (if truthy empty
            then cs <- iterate empty;;
                 d <- make_empty_bboxes cs area;;
                 ret (PyDict d)
            else ret empty);;
  stacks <- varying_margins_centered area [bboxes; as_collection empty]
              margin ignore_borders;;
  export_squares stacks p;;;
  ret empty.

Definition main (path : list string) (area : Q) (margin : list Q)
    (ignore_borders : bool) (empty : pyval) : M unit :=
  foldM (main_step area margin ignore_borders) empty path;;;
  ret tt.
End Main.

(** ** parse_args *)

(** [s.split(sep)] for a separator of one character. *)
Fixpoint split (sep : Ascii.ascii) (s : string) : list string :=
  match s with
  | EmptyString => [EmptyString]
  | String c s' =>
      if Ascii.eqb c sep then EmptyString :: split sep s'
      else match split sep s' with
           | piece :: rest => String c piece :: rest
           | [] => [String c EmptyString]
           end
  end.

(** The ValueErrors of [parse_args], by their message. *)
Inductive arg_error :=
| InvalidArea (a : string)
| NoResolution
| InvalidResolution
| InvalidCoordinate (coord : string)
| InvalidFloat (x : string).

Inductive parsed (A : Type) :=
| Parsed (a : A)
| Rejected (e : arg_error).
Arguments Parsed {A} a.
Arguments Rejected {A} e.

(** A list comprehension, or a loop that appends, over a function that
    may raise: the first error ends it. *)
Fixpoint parse_all {A B} (f : A → parsed B) (xs : list A) : parsed (list B) :=
  match xs with
  | [] => Parsed []
  | x :: xs' =>
      match f x with
      | Rejected e => Rejected e
      | Parsed y =>
          match parse_all f xs' with
          | Rejected e => Rejected e
          | Parsed ys => Parsed (y :: ys)
          end
      end
  end.

(** Lines 13-25. *)
Definition AREAS : list (string * Q) :=
  [("Q20", 20 ^ 2); ("Q25", 25 ^ 2); ("Q30", 30 ^ 2)]%Q.

Definition RESOLUTIONS : list (string * Q) :=
  [("10x_UNikon", 1527 # 1000); ("10x_Nikon", 1541 # 1000);
   ("10x_Zeiss", 1546 # 1000)]%Q.

(** [table[name]]; [None] for KeyError. *)
Fixpoint table_get (name : string) (table : list (string * Q)) : option Q :=
  match table with
  | [] => None
  | (k, v) :: table' => if String.eqb k name then Some v else table_get name table'
  end.

Section Args.
(** [float(x)] and [int(x.strip())] of the Python library; [None] when
    they raise ValueError. *)
Variable float_of : string → option Q.
Variable int_of : string → option Z.

(** Lines 231-259. [float(None)] raises TypeError and [RESOLUTIONS[None]]
    KeyError, both caught. *)
Definition parse_area (area_arg : string) (resolution : option string)
    : parsed Q :=
  let '(area, resolution_required) :=
    match float_of area_arg with
    | Some a => (Some a, false)
    | None => (table_get area_arg AREAS, true)
    end in
  match area with
  | None => Rejected (InvalidArea area_arg)
  | Some area =>
      if bool_decide (resolution ≠ None) || resolution_required then
        let res :=
          match resolution ≫= float_of with
          | Some r => Some r
          | None => resolution ≫= λ name, table_get name RESOLUTIONS
          end in
        match res with
        | None =>
            if resolution_required && bool_decide (resolution = None)
            then Rejected NoResolution
            else Rejected InvalidResolution
        | Some res => Parsed (area * res ^ 2)%Q
        end
      else Parsed area
  end.

(** Lines 263-269: the inner loop; [None] when it breaks. *)
Fixpoint parse_ints (parts : list string) (cc : list Z) : option (list Z) :=
  match parts with
  | [] => Some cc
  | csp :: parts' =>
      match int_of csp with
      | Some n => parse_ints parts' (cc ++ [n])
      | None => None
      end
  end.

(** Lines 263-276 for one coordinate. *)
Definition parse_coord (coord : string) : parsed (Z * Z) :=
  match parse_ints (split ","%char coord) [] with
  | Some [x; y] => Parsed (x, y)
  | _ => Rejected (InvalidCoordinate coord)
  end.

(** The pieces that line 262 iterates over. *)
Definition coord_pieces (empty : list string) : list string :=
  filter (λ c, c ≠ "") (concat (split ";"%char <$> empty)).

(** Lines 261-276. *)
Definition parse_empty (empty : list string) : parsed (list (Z * Z)) :=
  parse_all parse_coord (coord_pieces empty).
End Args.

(** * Notions used in the statements *)

(** The frames selected by the first index on a stack of [n] frames. *)
Definition selected (n : nat) (frame : selector) (f : nat) : bool :=
  match frame with
  | SliceAll => true
  | Index i => bool_decide (f = Z.to_nat (if i <? 0 then i + Z.of_nat n else i))
  end.

(** The entries written by [stack[frame, ..., y1:y2, x1:x2] = val]. *)
Definition painted (s : ndarray) (frame : selector) (y1 y2 x1 x2 : Z)
    (f y x : nat) : bool :=
  selected (length (frames s)) frame f
  && in_slice (hgt s) y1 y2 y && in_slice (wid s) x1 x2 x.

(** An integer frame must index the stack; [None] and [...] always do. *)
Definition valid_frame (n : nat) (frame : frame_key) : Prop :=
  match frame_selector frame with
  | SliceAll => True
  | Index i => - Z.of_nat n <= i < Z.of_nat n
  end.

(** A stack of [n] frames of 4 rows and 6 columns, all zero. *)
Definition blank (n : nat) : ndarray :=
  {| hgt := 4; wid := 6;
     frames := replicate n (replicate 4 (replicate 6 0)) |}.

(** Boxes that lie left of the image and above it. *)
Definition box_left : BoundingBox :=
  {| x_min := -3; x_max := -1; y_min := 1; y_max := 3;
     x_mean := -2; y_mean := 2; area := 4 |}.
Definition box_above : BoundingBox :=
  {| x_min := 1; x_max := 3; y_min := -3; y_max := -1;
     x_mean := 2; y_mean := -2; area := 4 |}.

(** A box whose centroid lies right of the 6 x 4 image. *)
Definition box_right : BoundingBox :=
  {| x_min := 6; x_max := 8; y_min := 1; y_max := 3;
     x_mean := 7; y_mean := 2; area := 4 |}.

(** The box and the entry that [make_empty_bboxes] stores for the
    coordinate [c] at position [i]. *)
Definition empty_box (w h : Z) (c : Z * Z) : BoundingBox :=
  let x1 := c.1 - w / 2 in
  let y1 := c.2 - h / 2 in
  {| x_min := x1; x_max := x1 + w;
     x_mean := (inject_Z (x1 + (x1 + w)) / 2)%Q;
     y_min := y1; y_max := y1 + h;
     y_mean := (inject_Z (y1 + (y1 + h)) / 2)%Q;
     area := inject_Z (w * h) |}.






(** From [s] to [s']: same shape, the same entries exist, and an entry that
    is not 0 stays so. *)
Definition grows (s s' : ndarray) : Prop :=
  hgt s' = hgt s ∧ wid s' = wid s
  ∧ length (frames s') = length (frames s)
  ∧ ∀ f y x, match pixel s f y x with
             | Some v => ∃ v', pixel s' f y x = Some v' ∧ (v ≠ 0 → v' ≠ 0)
             | None => pixel s' f y x = None
             end.

(** The stacks of the dict, entry by entry: same margin, grown stack. *)
Definition grows_all (st st' : list (Q * ndarray)) : Prop :=
  Forall2 (λ a b, a.1 = b.1 ∧ grows a.2 b.2) st st'.

(** The value of [np.zeros((n, h, w))] when it returns. *)
Definition zero_stack (n h w : Z) : ndarray :=
  {| hgt := h; wid := w;
     frames := replicate (Z.to_nat n)
                 (replicate (Z.to_nat h) (replicate (Z.to_nat w) 0)) |}.

(** The pickled content of an input without cells: two frames of 6 x 6. *)
Definition meta_only : collection :=
  [(None, Meta {| n_frames := 2; width := 6; height := 6 |})].

(** The stacks that lines 148-150 build from zero stacks [z]. *)
Definition alloc_keys (z : ndarray) (margins : list Q) : list (Q * ndarray) :=
  fold_left (λ st mg, dict_set mg z st) margins [].

(** An item that the loop can draw: the metadata under [None], or a track
    whose integer frame keys index a stack of [n] frames. *)
Definition valid_item (n : nat) (it : option Z * roi) : Prop :=
  match it.1 with
  | None => True
  | Some _ => ∃ t, it.2 = Track t ∧ Forall (λ e, valid_frame n e.1) t
  end.

(** A stack of the dict that the loop can draw on. *)
Definition drawable (area : Q) (n : nat) (ms : Q * ndarray) : Prop :=
  (0 <= (1 + ms.1) * area)%Q ∧ length (frames ms.2) = n.

(** One cell tracked over three frames of a [w] x [h] image. *)
Definition one_cell (w h k f0 f1 f2 : Z) (b0 b1 b2 : BoundingBox)
    : collection :=
  [(None, Meta {| n_frames := 3; width := w; height := h |});
   (Some k, Track [(FrInt f0, b0); (FrInt f1, b1); (FrInt f2, b2)])].

(** The stack of [meta_only] with the empty site at (3, 3), area 4. *)
Definition site_stack : ndarray :=
  {| hgt := 6; wid := 6;
     frames := replicate 2 [[0; 0; 0; 0; 0; 0]; [0; 0; 0; 0; 0; 0];
                            [0; 0; 1; 1; 0; 0]; [0; 0; 1; 1; 0; 0];
                            [0; 0; 0; 0; 0; 0]; [0; 0; 0; 0; 0; 0]] |}.

(** A box inside the 6 x 4 image. *)
Definition box_inside : BoundingBox :=
  {| x_min := 1; x_max := 3; y_min := 1; y_max := 3;
     x_mean := 2; y_mean := 2; area := 4 |}.

(** Every entry of [s] satisfies [P]. *)
Definition values_in (P : Z → Prop) (s : ndarray) : Prop :=
  ∀ f y x v, pixel s f y x = Some v → P v.

(** No key of the dict equals, as a number, a key that follows it. *)
Fixpoint distinct_keys (d : list (Q * ndarray)) : Prop :=
  match d with
  | [] => True
  | ms :: d' =>
      Forall (λ ms', Qeq_bool ms.1 ms'.1 = false) d' ∧ distinct_keys d'
  end.

Global Instance frame_key_eq_dec : EqDecision frame_key.
Proof. solve_decision. Defined.

(** One input file without empty sites: read, build the stacks, write
    them. *)
Definition process_file (read_bboxes : string → result collection)
    (area : Q) (margin : list Q) (ignore_borders : bool) (p : string)
    : M unit :=
  bboxes <- lift (read_bboxes p);;
  stacks <- varying_margins_centered area [bboxes; []] margin ignore_borders;;
  export_squares stacks p.

(** The entry (f, y, x) of the stack of [margin], of [n] frames of [h] rows
    and [w] columns, lies in the square of a box of a track among [its],
    stored under a frame key that selects [f], and the square fits. *)
Definition covered (area margin : Q) (n : nat) (h w : Z)
    (its : list (option Z * roi)) (f y x : nat) : Prop :=
  ∃ k t fr bb l x1 x2 y1 y2,
    (Some k, Track t) ∈ its ∧ (fr, bb) ∈ t ∧ fr ≠ FrEllipsis
    ∧ rint_sqrt ((1 + margin) * area) = Some l
    ∧ extents bb (Some l) (Some l) true = (x1, x2, y1, y2)
    ∧ hits_border x1 x2 y1 y2 w h = false
    ∧ selected n (frame_selector fr) f = true
    ∧ y1 <= Z.of_nat y < y2 ∧ x1 <= Z.of_nat x < x2.

(** * Properties *)

(** ** Rounding *)

Lemma rint_inject_Z (z : Z) : rint (inject_Z z) = z.
Proof.
  unfold rint, inject_Z. simpl.
  rewrite Z.mod_1_r, Z.div_1_r. reflexivity.
Qed.

(** ** Pixels after an assignment *)

Lemma lookup_fill_row s x1 x2 val (row : list Z) (x : nat) :
  fill_row s x1 x2 val row !! x
  = (λ v, if in_slice (wid s) x1 x2 x then val else v) <$> row !! x.
Proof. unfold fill_row. by rewrite list_lookup_imap. Qed.

Lemma lookup_fill_frame s y1 y2 x1 x2 val (fr : list (list Z)) (y x : nat) :
  (fill_frame s y1 y2 x1 x2 val fr !! y ≫= λ row, row !! x)
  = (λ v, if in_slice (hgt s) y1 y2 y && in_slice (wid s) x1 x2 x
          then val else v) <$> (fr !! y ≫= λ row, row !! x).
Proof.
  unfold fill_frame. rewrite list_lookup_imap.
  destruct (fr !! y) as [row|]; simpl; [|done].
  destruct (in_slice (hgt s) y1 y2 y); simpl.
  - apply lookup_fill_row.
  - by destruct (row !! x).
Qed.

Lemma setitem_pixel s frame y1 y2 x1 x2 val tr s' :
  setitem s frame y1 y2 x1 x2 val = (tr, OK s') →
  tr = [] ∧ hgt s' = hgt s ∧ wid s' = wid s
  ∧ length (frames s') = length (frames s)
  ∧ ∀ f y x, pixel s' f y x
             = (λ v, if painted s frame y1 y2 x1 x2 f y x then val else v)
               <$> pixel s f y x.
Proof.
  unfold setitem, painted. destruct frame as [|i]; simpl.
  - intros [= <- <-]. simpl. rewrite length_fmap.
    split_and!; try done. intros f y x. unfold pixel. simpl. rewrite list_lookup_fmap.
    destruct (frames s !! f) as [fr|]; simpl; [|done].
    apply lookup_fill_frame.
  - destruct (_ || _); [discriminate|]. intros [= <- <-]. simpl.
    rewrite length_alter. split_and!; try done.
    intros f y x. unfold pixel. simpl.
    set (j := Z.to_nat _). case_bool_decide as Hf.
    + subst f. rewrite list_lookup_alter_eq.
      destruct (frames s !! j) as [fr|]; simpl; [|done].
      apply lookup_fill_frame.
    + rewrite list_lookup_alter_ne by done. simpl.
      by destruct (frames s !! f ≫= _).
Qed.

Lemma setitem_ok s frame y1 y2 x1 x2 val :
  match frame with
  | SliceAll => True
  | Index i => - Z.of_nat (length (frames s)) <= i < Z.of_nat (length (frames s))
  end →
  ∃ s', setitem s frame y1 y2 x1 x2 val = ([], OK s').
Proof.
  unfold setitem. destruct frame as [|i]; [by eexists|]. intros Hi.
  destruct (_ || _) eqn:E; [lia|]. by eexists.
Qed.

(** A slice whose bounds are not negative selects the indices between
    them. *)
Lemma in_slice_nonneg n a b (i : nat) :
  0 <= a → 0 <= b → Z.of_nat i < n →
  in_slice n a b i = true ↔ a <= Z.of_nat i < b.
Proof. unfold in_slice, adjust. intros. destruct (a <? 0) eqn:?, (b <? 0) eqn:?; lia. Qed.

Lemma wf_pixel s (f y x : nat) :
  wf_stack s → (f < length (frames s))%nat →
  Z.of_nat y < hgt s → Z.of_nat x < wid s →
  is_Some (pixel s f y x).
Proof.
  intros (_ & _ & Hwf) Hf Hy Hx. unfold pixel.
  destruct (lookup_lt_is_Some_2 _ _ Hf) as [fr Hfr]. rewrite Hfr. simpl.
  rewrite Forall_lookup in Hwf. destruct (Hwf _ _ Hfr) as [Hlen Hrows].
  destruct (lookup_lt_is_Some_2 fr y) as [row Hrow]; [lia|]. rewrite Hrow. simpl.
  rewrite Forall_lookup in Hrows. specialize (Hrows _ _ Hrow).
  apply lookup_lt_is_Some_2. lia.
Qed.

(** ** insert_bb *)

Lemma hits_border_true x1 x2 y1 y2 width height :
  hits_border x1 x2 y1 y2 width height = true
  ↔ x1 < 0 ∨ width < x2 ∨ y1 < 0 ∨ height < y2.
Proof. unfold hits_border. rewrite !orb_true_iff. lia. Qed.

Lemma hits_border_false x1 x2 y1 y2 width height :
  hits_border x1 x2 y1 y2 width height = false
  ↔ 0 <= x1 ∧ x2 <= width ∧ 0 <= y1 ∧ y2 <= height.
Proof. unfold hits_border. rewrite !orb_false_iff. lia. Qed.

(** [insert_bb] in terms of its extents: the three outcomes. *)
Lemma insert_bb_unfold stack bb bb_width bb_height frame weighted ignore_borders
    x1 x2 y1 y2 cx1 cx2 cy1 cy2 :
  extents bb bb_width bb_height weighted = (x1, x2, y1, y2) →
  clamp x1 x2 y1 y2 (wid stack) (hgt stack) = (cx1, cx2, cy1, cy2) →
  insert_bb stack bb bb_width bb_height frame weighted ignore_borders
  = if hits_border x1 x2 y1 y2 (wid stack) (hgt stack) then
      let line tag := Stderr (border_message tag x1 x2 y1 y2
                                (frame_name (frame_selector frame))
                                (bb_size bb bb_width bb_height).1.2
                                (bb_size bb bb_width bb_height).2) in
      if ignore_borders then
        let r := setitem stack (frame_selector frame) cy1 cy2 cx1 cx2 2 in
        (line "INCLUDE" :: r.1, r.2)
      else ([line "EXCLUDE"], OK stack)
    else setitem stack (frame_selector frame) y1 y2 x1 x2 1.
Proof.
  intros E C. unfold insert_bb. rewrite E.
  destruct (bb_size bb bb_width bb_height) as [[[w h] bw] bh].
  destruct (hits_border x1 x2 y1 y2 (wid stack) (hgt stack)); [|done].
  rewrite C. unfold bind, emit.
  destruct ignore_borders; simpl; [|done].
  by destruct (setitem stack (frame_selector frame) cy1 cy2 cx1 cx2 2).
Qed.

(** Splits a goal on [insert_bb] into its outcomes, from the equation [E]
    of its extents; [a b c d] name the clamped extents. *)
Tactic Notation "insert_bb_outcomes" constr(E) "as"
    ident(a) ident(b) ident(c) ident(d) ident(C) :=
  match type of E with
  | extents _ _ _ _ = (?x1, ?x2, ?y1, ?y2) =>
      match goal with
      | |- context [insert_bb ?stack _ _ _ _ _ _] =>
          destruct (clamp x1 x2 y1 y2 (wid stack) (hgt stack))
            as [[[a b] c] d] eqn:C;
          rewrite (insert_bb_unfold _ _ _ _ _ _ _ _ _ _ _ _ _ _ _ E C)
      end
  end.

(** A border diagnostic is emitted exactly when the border check fires. *)
Lemma insert_bb_trace stack bb bb_width bb_height frame weighted ignore_borders
    x1 x2 y1 y2 :
  extents bb bb_width bb_height weighted = (x1, x2, y1, y2) →
  (insert_bb stack bb bb_width bb_height frame weighted ignore_borders).1 = []
  ↔ hits_border x1 x2 y1 y2 (wid stack) (hgt stack) = false.
Proof.
  intros E.
  insert_bb_outcomes E as a b c d C.
  destruct (hits_border x1 x2 y1 y2 (wid stack) (hgt stack)).
  - split; [|done]. by destruct ignore_borders.
  - split; [done|]. intros _. unfold setitem.
    destruct (frame_selector frame); [done|]. by destruct (_ || _).
Qed.


(** C6. For a frame argument that indexes the stack ([None] and [...]
    always do): when the computed extents lie within the image, [insert_bb]
    emits nothing and every pixel of the footprint, in every selected frame,
    holds 1 afterwards. Whatever the frame, for computed extents that are
    ordered ([x1 <= x2] and [y1 <= y2]), a border diagnostic is emitted if
    and only if some extent falls outside [0, width] x [0, height]. The
    extents are taken as line 103-112 computed them; no arithmetic between
    them is used. *)
Theorem insert_bb_fits stack bb bb_width bb_height frame weighted
    ignore_borders x1 x2 y1 y2 :
  wf_stack stack →
  extents bb bb_width bb_height weighted = (x1, x2, y1, y2) →
  (valid_frame (length (frames stack)) frame →
   0 <= x1 ∧ x2 <= wid stack ∧ 0 <= y1 ∧ y2 <= hgt stack →
   ∃ stack',
     insert_bb stack bb bb_width bb_height frame weighted ignore_borders
     = ([], OK stack')
     ∧ shape stack' = shape stack
     ∧ ∀ f y x : nat,
         (f < length (frames stack))%nat →
         selected (length (frames stack)) (frame_selector frame) f = true →
         y1 <= Z.of_nat y < y2 → x1 <= Z.of_nat x < x2 →
         pixel stack' f y x = Some 1)
  ∧ (x1 <= x2 → y1 <= y2 →
     (insert_bb stack bb bb_width bb_height frame weighted ignore_borders).1
       ≠ []
     ↔ ¬ (0 <= x1 <= wid stack ∧ 0 <= x2 <= wid stack
          ∧ 0 <= y1 <= hgt stack ∧ 0 <= y2 <= hgt stack)).
Proof.
  intros Hwf E. split.
  - intros Hfr Hin.
    insert_bb_outcomes E as a b c d C.
    rewrite (proj2 (hits_border_false _ _ _ _ _ _) Hin).
    destruct (setitem_ok stack (frame_selector frame) y1 y2 x1 x2 1) as [s' Hs'].
    { exact Hfr. }
    exists s'. split; [done|].
    destruct (setitem_pixel _ _ _ _ _ _ _ _ _ Hs') as (_ & Hh & Hw & Hn & Hpx).
    split. { unfold shape. by rewrite Hh, Hw, Hn. }
    intros f y x Hf Hsel Hy Hx. rewrite Hpx.
    destruct (wf_pixel stack f y x) as [v Hv]; [done|done|lia|lia|].
    rewrite Hv. simpl. unfold painted. rewrite Hsel. simpl.
    rewrite (proj2 (in_slice_nonneg (hgt stack) y1 y2 y ltac:(lia) ltac:(lia) ltac:(lia))) by lia.
    rewrite (proj2 (in_slice_nonneg (wid stack) x1 x2 x ltac:(lia) ltac:(lia) ltac:(lia))) by lia.
    done.
  - intros Hx Hy.
    rewrite (insert_bb_trace _ _ _ _ _ _ _ _ _ _ _ E).
    rewrite hits_border_false. lia.
Qed.

(** The property fails for a call whose frame does not index the stack: the
    extents (1, 3, 1, 3) fit the 6 x 4 image, and frame 5 of a stack of one
    frame raises IndexError, so that no 1 is written. The equivalence fails
    for a negative requested width: the extents (9, 6, 1, 3) have x1 right
    of the image, and no diagnostic is emitted. *)
Lemma insert_bb_fits_not_every_call :
  (extents box_inside (Some 2) (Some 2) true = (1, 3, 1, 3)
   ∧ (0 <= 1 ∧ 3 <= wid (blank 1) ∧ 0 <= 1 ∧ 3 <= hgt (blank 1))
   ∧ insert_bb (blank 1) box_inside (Some 2) (Some 2) (FrInt 5) true false
     = ([], Raise IndexError))
  ∧ (extents box_right (Some (-3)) (Some 2) true = (9, 6, 1, 3)
     ∧ ¬ 0 <= 9 <= wid (blank 1)
     ∧ insert_bb (blank 1) box_right (Some (-3)) (Some 2) FrNone true false
       = ([], OK (blank 1))).
Proof.
  split.
  - split; [reflexivity|]. split; [simpl; lia|reflexivity].
  - split; [reflexivity|]. split; [simpl; lia|reflexivity].
Qed.

(** C7. In bounds-centered mode, a requested size equal to the box's own
    size gives the box back: the extents start at [x_min] and [y_min] and
    end, exclusively, one past [x_max] and [y_max], so the footprint is
    exactly the box. *)
Theorem extents_identity bb w h :
  x_max bb - x_min bb = w - 1 →
  y_max bb - y_min bb = h - 1 →
  ∃ x1 x2 y1 y2,
    extents bb (Some w) (Some h) false = (x1, x2, y1, y2)
    ∧ x1 = x_min bb ∧ x2 = x_max bb + 1
    ∧ y1 = y_min bb ∧ y2 = y_max bb + 1
    ∧ ∀ x y, (x1 <= x < x2 ∧ y1 <= y < y2)
             ↔ (x_min bb <= x <= x_max bb ∧ y_min bb <= y <= y_max bb).
Proof.
  intros Hw Hh. unfold extents, bb_size. simpl.
  replace (w - (x_max bb - x_min bb + 1)) with 0 by lia.
  replace (h - (y_max bb - y_min bb + 1)) with 0 by lia.
  change (0 / 2) with 0. rewrite !Z.sub_0_r.
  do 4 eexists. split; [reflexivity|]. split_and!; try lia. 
Qed.

(** A slice with bounds that are not negative, on any index. *)
Lemma in_slice_nonneg_iff n a b (i : nat) :
  0 <= a → 0 <= b →
  in_slice n a b i = true ↔ a <= Z.of_nat i < b ∧ Z.of_nat i < n.
Proof.
  unfold in_slice, adjust. intros.
  destruct (a <? 0) eqn:?, (b <? 0) eqn:?; lia.
Qed.

(** X5. The clipped outcome when the computed ends [x2] and [y2] are not
    negative: one INCLUDE line, 2 in the part of the footprint that lies in
    the image, every other entry as before. *)
Lemma insert_bb_clipped stack bb bb_width bb_height frame weighted
    x1 x2 y1 y2 :
  wf_stack stack →
  valid_frame (length (frames stack)) frame →
  extents bb bb_width bb_height weighted = (x1, x2, y1, y2) →
  x1 < 0 ∨ wid stack < x2 ∨ y1 < 0 ∨ hgt stack < y2 →
  0 <= x2 → 0 <= y2 →
  ∃ stack',
    insert_bb stack bb bb_width bb_height frame weighted true
    = ([Stderr (border_message "INCLUDE" x1 x2 y1 y2
                  (frame_name (frame_selector frame))
                  (bb_size bb bb_width bb_height).1.2
                  (bb_size bb bb_width bb_height).2)], OK stack')
    ∧ shape stack' = shape stack
    ∧ ∀ f y x : nat,
        let inside :=
          selected (length (frames stack)) (frame_selector frame) f = true
          ∧ Z.max 0 y1 <= Z.of_nat y < Z.min y2 (hgt stack)
          ∧ Z.max 0 x1 <= Z.of_nat x < Z.min x2 (wid stack) in
        (inside → (f < length (frames stack))%nat →
         pixel stack' f y x = Some 2)
        ∧ (¬ inside → pixel stack' f y x = pixel stack f y x).
Proof.
  intros Hwf Hfr E Hout Hx2 Hy2. apply hits_border_true in Hout.
  insert_bb_outcomes E as a b c d C. rewrite Hout.
  destruct (setitem_ok stack (frame_selector frame) c d a b 2) as [s' Hs'].
  { exact Hfr. }
  exists s'. rewrite Hs'. split; [done|].
  destruct (setitem_pixel _ _ _ _ _ _ _ _ _ Hs') as (_ & Hh & Hw & Hn & Hpx).
  split. { unfold shape. by rewrite Hh, Hw, Hn. }
  destruct Hwf as (HH & HW & Hwf).
  assert (a = Z.max 0 x1 ∧ b = Z.min x2 (wid stack)
          ∧ c = Z.max 0 y1 ∧ d = Z.min y2 (hgt stack)) as (-> & -> & -> & ->).
  { revert C. unfold clamp.
    destruct (x1 <? 0) eqn:?, (x2 >? wid stack) eqn:?,
             (y1 <? 0) eqn:?, (y2 >? hgt stack) eqn:?;
      intros [= <- <- <- <-]; lia. }
  intros f y x inside. subst inside. split.
  - intros (Hsel & Hy & Hx) Hf. rewrite Hpx.
    destruct (wf_pixel stack f y x) as [v Hv]; [done|done|lia|lia|].
    rewrite Hv. simpl. unfold painted. rewrite Hsel. simpl.
    rewrite (proj2 (in_slice_nonneg_iff (hgt stack) (Z.max 0 y1)
                      (Z.min y2 (hgt stack)) y ltac:(lia) ltac:(lia))) by lia.
    rewrite (proj2 (in_slice_nonneg_iff (wid stack) (Z.max 0 x1)
                      (Z.min x2 (wid stack)) x ltac:(lia) ltac:(lia))) by lia.
    done.
  - intros Hnot. rewrite Hpx. destruct (pixel stack f y x) as [v|]; [|done].
    simpl. f_equal. unfold painted.
    destruct (selected _ _ f) eqn:Hsel; [|done]. simpl.
    destruct (in_slice (hgt stack) _ _ y) eqn:Hy; [|done]. simpl.
    destruct (in_slice (wid stack) _ _ x) eqn:Hx; [|done].
    apply in_slice_nonneg_iff in Hy; [|lia..].
    apply in_slice_nonneg_iff in Hx; [|lia..].
    exfalso. apply Hnot. lia.
Qed.

(** C5. A 2 x 2 square around the centroid (-2, 2) has the extents
    x = -3:-1, y = 1:3 and lies left of a 6 x 4 image; its part inside the
    image is empty. With [ignore_borders] the call emits one INCLUDE line
    and leaves x2 = -1 as it is, which as a slice bound counts from the
    right edge: columns 0 to 4 of rows 1 and 2 receive the value 2, none of
    them in the footprint. *)
Theorem insert_bb_include_left_of_image :
  extents box_left (Some 2) (Some 2) true = (-3, -1, 1, 3)
  ∧ clamp (-3) (-1) 1 3 (wid (blank 1)) (hgt (blank 1)) = (0, -1, 1, 3)
  ∧ insert_bb (blank 1) box_left (Some 2) (Some 2) FrNone true true
    = ([Stderr "INCLUDE box (x=-3:-1, y=1:3)[:] that hits border (w=2, h=2)"],
       OK {| hgt := 4; wid := 6;
             frames := [[[0; 0; 0; 0; 0; 0];
                         [2; 2; 2; 2; 2; 0];
                         [2; 2; 2; 2; 2; 0];
                         [0; 0; 0; 0; 0; 0]]] |}).
Proof. split_and!; reflexivity. Qed.

(** C10. The same slip on one frame of two, with a square above the image
    (extents x = 1:3, y = -3:-1): frame 0 receives the value 2 in rows 0 to
    2 of columns 1 and 2, entries that are outside the clamped rectangle
    x = 1:3, y = 0:-1, which is empty; frame 1 keeps its values. *)
Theorem insert_bb_frame_above_image :
  extents box_above (Some 2) (Some 2) true = (1, 3, -3, -1)
  ∧ clamp 1 3 (-3) (-1) (wid (blank 2)) (hgt (blank 2)) = (1, 3, 0, -1)
  ∧ ∃ stack',
      (insert_bb (blank 2) box_above (Some 2) (Some 2) (FrInt 0) true true).2
      = OK stack'
      ∧ pixel (blank 2) 0 0 1 = Some 0
      ∧ pixel stack' 0 0 1 = Some 2
      ∧ frames stack' = [[[0; 2; 2; 0; 0; 0];
                          [0; 2; 2; 0; 0; 0];
                          [0; 2; 2; 0; 0; 0];
                          [0; 0; 0; 0; 0; 0]];
                         [[0; 0; 0; 0; 0; 0];
                          [0; 0; 0; 0; 0; 0];
                          [0; 0; 0; 0; 0; 0];
                          [0; 0; 0; 0; 0; 0]]].
Proof. split_and!; [reflexivity..|]. eexists. split_and!; reflexivity. Qed.

(** ** The rounded square root *)

(** [rint_sqrt q] is within 1/2 of the square root of [q], and even when the
    root is exactly half way between two integers. *)
Lemma rint_sqrt_spec q r :
  rint_sqrt q = Some r →
  let a := Qnum q in
  let d := Zpos (Qden q) in
  0 <= a ∧ 0 <= r
  ∧ 4 * a <= (2 * r + 1) ^ 2 * d
  ∧ (0 < r → (2 * r - 1) ^ 2 * d <= 4 * a)
  ∧ (4 * a = (2 * r + 1) ^ 2 * d → Z.even r = true)
  ∧ (0 < r → 4 * a = (2 * r - 1) ^ 2 * d → Z.even r = true).
Proof.
  intros H a d. unfold rint_sqrt in H. fold a d in H.
  destruct (a <? 0) eqn:Ha; [discriminate|].
  assert (0 <= a) as Ha' by lia. assert (0 < d) as Hd by (subst d; lia).
  assert (0 <= a / d) as Hq by (apply Z.div_pos; lia).
  pose proof (Z.sqrt_spec (a / d) Hq) as Hs. cbv zeta in Hs.
  pose proof (Z.sqrt_nonneg (a / d)) as Hn.
  pose proof (Z.mul_div_le a d Hd) as Hlo.
  pose proof (Z.mul_succ_div_gt a d Hd) as Hhi.
  set (n := Z.sqrt (a / d)) in *.
  assert (n * n * d <= a) as Hnd by nia.
  assert (a < (n + 1) * (n + 1) * d) as Hnd' by nia.
  rewrite !Z.pow_2_r. rewrite Z.pow_2_r in H.
  destruct (4 * a ?= (2 * n + 1) * (2 * n + 1) * d) eqn:Hc.
  - apply Z.compare_eq in Hc.
    destruct (Z.even n) eqn:He; injection H as <-.
    + split_and!; [lia|lia|lia|nia|done|nia].
    + split_and!; [lia|lia|nia|nia|nia|].
      intros _ _. rewrite Z.even_add, He. reflexivity.
  - rewrite Z.compare_lt_iff in Hc. injection H as <-.
    split_and!; [lia|lia|lia|nia|lia|nia].
  - rewrite Z.compare_gt_iff in Hc. injection H as <-.
    split_and!; [lia|lia|nia|nia|nia|nia].
Qed.

Lemma rint_sqrt_Some q : (0 <= q)%Q → ∃ r, rint_sqrt q = Some r.
Proof.
  unfold Qle, rint_sqrt. simpl. intros H.
  destruct (Qnum q <? 0) eqn:E; [lia|]. by eexists.
Qed.




(** ** make_empty_bboxes *)


Lemma rint_minus_inject_Z (a b : Z) : rint (inject_Z a - inject_Z b) = a - b.
Proof.
  unfold rint, Qminus, Qplus, Qopp, inject_Z. cbn [Qnum Qden Pos.mul].
  rewrite Z.mod_1_r, Z.div_1_r.
  change (2 * 0 ?= Z.pos (1 * 1)) with Lt. cbv iota. lia.
Qed.






(** ** Sequencing *)

Lemma bind_OK {A B} (m : M A) (k : A → M B) tr b :
  bind m k = (tr, OK b) →
  ∃ tr1 a tr2, m = (tr1, OK a) ∧ k a = (tr2, OK b) ∧ tr = tr1 ++ tr2.
Proof.
  unfold bind. destruct m as [tr1 [a|e]]; [|discriminate].
  destruct (k a) as [tr2 r] eqn:Hk. intros [= <- ->]. by exists tr1, a, tr2.
Qed.

Lemma foldM_app {A B} (body : A → B → M A) acc xs ys :
  foldM body acc (xs ++ ys)
  = (acc' <- foldM body acc xs;; foldM body acc' ys).
Proof.
  revert acc. induction xs as [|x xs IH]; intros acc; simpl.
  - by destruct (foldM body acc ys).
  - destruct (body acc x) as [tr [a|e]]; simpl; [|done].
    rewrite IH. destruct (foldM body a xs) as [tr1 [a1|e1]]; simpl; [|done].
    destruct (foldM body a1 ys) as [tr2 r2]. by rewrite app_assoc.
Qed.

(** An invariant of the loop body holds after the loop. *)
Lemma foldM_inv {A B} (R : A → A → Prop) (body : A → B → M A) xs :
  (∀ a, R a a) → (∀ a b c, R a b → R b c → R a c) →
  (∀ a x tr a', body a x = (tr, OK a') → R a a') →
  ∀ acc tr acc', foldM body acc xs = (tr, OK acc') → R acc acc'.
Proof.
  intros Hrefl Htrans Hbody. induction xs as [|x xs IH]; intros acc tr acc' H.
  - injection H as <- <-. apply Hrefl.
  - simpl in H. apply bind_OK in H as (tr1 & a & tr2 & H1 & H2 & _).
    eapply Htrans; [by eapply Hbody|by eapply IH].
Qed.

Lemma mapM_OK {A B} (f : A → M B) xs tr ys :
  mapM f xs = (tr, OK ys) →
  Forall2 (λ x y, ∃ tr', f x = (tr', OK y)) xs ys.
Proof.
  revert tr ys. induction xs as [|x xs IH]; intros tr ys H; simpl in H.
  - injection H as <- <-. constructor.
  - apply bind_OK in H as (tr1 & y & tr2 & H1 & H2 & _).
    apply bind_OK in H2 as (tr3 & ys' & tr4 & H3 & H4 & _).
    injection H4 as <- <-. constructor; [by eexists|by eapply IH].
Qed.

(** ** What drawing preserves *)

Lemma grows_refl s : grows s s.
Proof.
  split_and!; try done. intros f y x. destruct (pixel s f y x); eauto.
Qed.

Lemma grows_trans s1 s2 s3 : grows s1 s2 → grows s2 s3 → grows s1 s3.
Proof.
  intros (Hh1 & Hw1 & Hn1 & Hp1) (Hh2 & Hw2 & Hn2 & Hp2).
  split_and!; try congruence. intros f y x.
  specialize (Hp1 f y x). specialize (Hp2 f y x).
  destruct (pixel s1 f y x) as [v|].
  - destruct Hp1 as (v' & Hv' & Hne). rewrite Hv' in Hp2.
    destruct Hp2 as (v'' & Hv'' & Hne'). exists v''. split; [done|]. auto.
  - by rewrite Hp1 in Hp2.
Qed.

Lemma setitem_grows s frame y1 y2 x1 x2 val tr s' :
  val ≠ 0 → setitem s frame y1 y2 x1 x2 val = (tr, OK s') → grows s s'.
Proof.
  intros Hval H.
  destruct (setitem_pixel _ _ _ _ _ _ _ _ _ H) as (_ & Hh & Hw & Hn & Hpx).
  split_and!; try done. intros f y x. rewrite Hpx.
  destruct (pixel s f y x) as [v|]; simpl; [|done].
  eexists. split; [done|]. by destruct (painted _ _ _ _ _ _ _ _ _).
Qed.

Lemma insert_bb_grows stack bb bb_width bb_height frame weighted ignore_borders
    tr stack' :
  insert_bb stack bb bb_width bb_height frame weighted ignore_borders
    = (tr, OK stack') →
  grows stack stack'.
Proof.
  destruct (extents bb bb_width bb_height weighted) as [[[x1 x2] y1] y2] eqn:E.
  insert_bb_outcomes E as a b c d C.
  destruct (hits_border x1 x2 y1 y2 (wid stack) (hgt stack)).
  - destruct ignore_borders; simpl.
    + destruct (setitem stack (frame_selector frame) c d a b 2) as [tr' r] eqn:H.
      simpl. intros [= <- ->]. by eapply setitem_grows; [|exact H].
    + intros [= <- <-]. apply grows_refl.
  - intros H. by eapply setitem_grows; [|exact H].
Qed.

Lemma insert_bb_total stack bb bb_width bb_height frame weighted ignore_borders :
  valid_frame (length (frames stack)) frame →
  ∃ tr stack',
    insert_bb stack bb bb_width bb_height frame weighted ignore_borders
    = (tr, OK stack').
Proof.
  intros Hfr.
  destruct (extents bb bb_width bb_height weighted) as [[[x1 x2] y1] y2] eqn:E.
  insert_bb_outcomes E as a b c d C.
  destruct (hits_border x1 x2 y1 y2 (wid stack) (hgt stack)).
  - destruct ignore_borders; simpl; [|by eauto].
    destruct (setitem_ok stack (frame_selector frame) c d a b 2 Hfr) as [s' ->].
    by eauto.
  - destruct (setitem_ok stack (frame_selector frame) y1 y2 x1 x2 1 Hfr) as [s' ->].
    by eauto.
Qed.

(** A square that fits sets every existing entry of its footprint, in the
    selected frames, to 1. *)
Lemma insert_bb_fits_pixel stack bb bb_width bb_height frame weighted
    ignore_borders x1 x2 y1 y2 tr stack' :
  extents bb bb_width bb_height weighted = (x1, x2, y1, y2) →
  hits_border x1 x2 y1 y2 (wid stack) (hgt stack) = false →
  insert_bb stack bb bb_width bb_height frame weighted ignore_borders
    = (tr, OK stack') →
  ∀ f y x : nat,
    selected (length (frames stack)) (frame_selector frame) f = true →
    y1 <= Z.of_nat y < y2 → x1 <= Z.of_nat x < x2 →
    pixel stack' f y x = (λ _, 1) <$> pixel stack f y x.
Proof.
  intros E Hfit.
  insert_bb_outcomes E as a b c d C. rewrite Hfit.
  intros H f y x Hsel Hy Hx. apply hits_border_false in Hfit.
  destruct (setitem_pixel _ _ _ _ _ _ _ _ _ H) as (_ & _ & _ & _ & Hpx).
  rewrite Hpx. unfold painted. rewrite Hsel. simpl.
  rewrite (proj2 (in_slice_nonneg (hgt stack) y1 y2 y ltac:(lia) ltac:(lia) ltac:(lia))) by lia.
  rewrite (proj2 (in_slice_nonneg (wid stack) x1 x2 x ltac:(lia) ltac:(lia) ltac:(lia))) by lia.
  done.
Qed.

Lemma grows_pixel s s' f y x v :
  grows s s' → pixel s f y x = Some v → v ≠ 0 →
  ∃ v', pixel s' f y x = Some v' ∧ v' ≠ 0.
Proof.
  intros (_ & _ & _ & Hp) Hv Hne. specialize (Hp f y x). rewrite Hv in Hp.
  destruct Hp as (v' & Hv' & H). eauto.
Qed.

Lemma grows_is_Some s s' f y x :
  grows s s' → is_Some (pixel s f y x) → is_Some (pixel s' f y x).
Proof.
  intros (_ & _ & _ & Hp) [v Hv]. specialize (Hp f y x). rewrite Hv in Hp.
  destruct Hp as (v' & Hv' & _). eauto.
Qed.

Lemma grows_all_refl st : grows_all st st.
Proof. induction st; constructor; auto using grows_refl. Qed.

Lemma grows_all_trans st1 st2 st3 :
  grows_all st1 st2 → grows_all st2 st3 → grows_all st1 st3.
Proof.
  apply Forall2_trans. intros a b c [E1 G1] [E2 G2].
  split; [congruence|by eapply grows_trans].
Qed.

Lemma grows_all_lookup st st' (i : nat) m s :
  grows_all st st' → st !! i = Some (m, s) →
  ∃ s', st' !! i = Some (m, s') ∧ grows s s'.
Proof.
  intros H Hi. destruct (Forall2_lookup_l _ _ _ _ _ H Hi) as ([m' s'] & Hi' & E & G).
  simpl in *. subst m'. eauto.
Qed.

Lemma grows_all_lookup_r st st' (i : nat) m s' :
  grows_all st st' → st' !! i = Some (m, s') →
  ∃ s, st !! i = Some (m, s) ∧ grows s s'.
Proof.
  intros H Hi. destruct (Forall2_lookup_r _ _ _ _ _ H Hi) as ([m' s] & Hi' & E & G).
  simpl in *. subst m'. eauto.
Qed.

Section Drawing.
Context (area : Q) (ignore_borders : bool).

Lemma draw_frames_grows l t s tr s' :
  draw_frames ignore_borders l s t = (tr, OK s') → grows s s'.
Proof.
  unfold draw_frames. apply foldM_inv.
  - apply grows_refl.
  - apply grows_trans.
  - intros a [fr bb] tr' a' H.
    destruct fr; [by eapply insert_bb_grows| |by eapply insert_bb_grows].
    injection H as <- <-. apply grows_refl.
Qed.

Lemma draw_margin_OK r m s tr ms' :
  draw_margin area ignore_borders r (m, s) = (tr, OK ms') →
  ∃ l t tr' s',
    rint_sqrt ((1 + m) * area) = Some l ∧ r = Track t
    ∧ draw_frames ignore_borders l s t = (tr', OK s') ∧ ms' = (m, s').
Proof.
  unfold draw_margin, bb_length. intros H.
  apply bind_OK in H as (tr1 & l & tr2 & H1 & H2 & _).
  destruct (rint_sqrt ((1 + m) * area)) as [l'|]; [|discriminate].
  injection H1 as <- <-. destruct r as [?|t]; [discriminate|].
  apply bind_OK in H2 as (tr3 & s' & tr4 & H3 & H4 & _).
  injection H4 as <- <-. by exists l', t, tr3, s'.
Qed.

Lemma draw_roi_grows st it tr st' :
  draw_roi area ignore_borders st it = (tr, OK st') → grows_all st st'.
Proof.
  destruct it as [[k|] r]; simpl.
  - intros H. apply mapM_OK in H. eapply Forall2_impl; [exact H|].
    intros [m s] ms' [tr' H'].
    apply draw_margin_OK in H' as (l & t & tr'' & s' & _ & _ & Hd & ->).
    split; [done|]. by eapply draw_frames_grows.
  - intros [= <- <-]. apply grows_all_refl.
Qed.

Lemma draw_rois_grows its st tr st' :
  foldM (draw_roi area ignore_borders) st its = (tr, OK st') →
  grows_all st st'.
Proof.
  apply foldM_inv.
  - apply grows_all_refl.
  - apply grows_all_trans.
  - intros a x tr' a'. apply draw_roi_grows.
Qed.

(** ** What drawing writes *)

(** A box of a track whose square fits is not 0 anywhere in its footprint
    once the frames of the track are drawn. *)
Lemma draw_frames_paints l s t tr s' fr bb x1 x2 y1 y2 :
  draw_frames ignore_borders l s t = (tr, OK s') →
  (fr, bb) ∈ t → fr ≠ FrEllipsis →
  extents bb (Some l) (Some l) true = (x1, x2, y1, y2) →
  hits_border x1 x2 y1 y2 (wid s) (hgt s) = false →
  ∀ f y x : nat,
    selected (length (frames s)) (frame_selector fr) f = true →
    y1 <= Z.of_nat y < y2 → x1 <= Z.of_nat x < x2 →
    is_Some (pixel s f y x) →
    ∃ v, pixel s' f y x = Some v ∧ v ≠ 0.
Proof.
  intros H Hin Hfr E Hfit f y x Hsel Hy Hx Hsome.
  apply list_elem_of_split in Hin as (t1 & t2 & ->).
  unfold draw_frames in H. rewrite foldM_app in H.
  apply bind_OK in H as (tr1 & s1 & tr2 & H1 & H2 & _).
  apply (draw_frames_grows l t1) in H1 as G1.
  simpl in H2. apply bind_OK in H2 as (tr3 & s2 & tr4 & H3 & H4 & _).
  apply (draw_frames_grows l t2) in H4 as G2.
  assert (insert_bb s1 bb (Some l) (Some l) fr true ignore_borders
          = (tr3, OK s2)) as Hins by (by destruct fr).
  destruct G1 as (Hh & Hw & Hn & Hp).
  assert (is_Some (pixel s1 f y x)) as [v1 Hv1].
  { destruct Hsome as [v Hv]. specialize (Hp f y x). rewrite Hv in Hp.
    destruct Hp as (v' & Hv' & _). eauto. }
  rewrite <- Hw, <- Hh in Hfit. rewrite <- Hn in Hsel.
  pose proof (insert_bb_fits_pixel _ _ _ _ _ _ _ _ _ _ _ _ _ E Hfit Hins
                f y x Hsel Hy Hx) as Hpx.
  rewrite Hv1 in Hpx. simpl in Hpx.
  by apply (grows_pixel s2 s' f y x 1 G2 Hpx).
Qed.

(** The same, for the stack at position [i] of the dict, once all items are
    drawn: a box of any track that is not stored under [None], under any
    frame key but [...], is drawn where its square fits. *)
Lemma draw_rois_paints its st tr st' k t (i : nat) m s0 :
  foldM (draw_roi area ignore_borders) st its = (tr, OK st') →
  (Some k, Track t) ∈ its →
  st !! i = Some (m, s0) →
  ∃ s,
    st' !! i = Some (m, s) ∧ grows s0 s
    ∧ ∀ l fr bb x1 x2 y1 y2,
        rint_sqrt ((1 + m) * area) = Some l →
        (fr, bb) ∈ t → fr ≠ FrEllipsis →
        extents bb (Some l) (Some l) true = (x1, x2, y1, y2) →
        hits_border x1 x2 y1 y2 (wid s0) (hgt s0) = false →
        ∀ f y x : nat,
          selected (length (frames s0)) (frame_selector fr) f = true →
          y1 <= Z.of_nat y < y2 → x1 <= Z.of_nat x < x2 →
          is_Some (pixel s0 f y x) →
          ∃ v, pixel s f y x = Some v ∧ v ≠ 0.
Proof.
  intros H Hin Hi.
  apply list_elem_of_split in Hin as (its1 & its2 & ->).
  rewrite foldM_app in H.
  apply bind_OK in H as (tr1 & stA & tr2 & H1 & H2 & _).
  simpl in H2. apply bind_OK in H2 as (tr3 & stB & tr4 & H3 & H4 & _).
  apply draw_rois_grows in H1 as GA. apply draw_rois_grows in H4 as GB.
  destruct (grows_all_lookup _ _ _ _ _ GA Hi) as (sA & HiA & GsA).
  apply mapM_OK in H3.
  destruct (Forall2_lookup_l _ _ _ _ _ H3 HiA) as (msB & HiB & trB & HdB).
  apply draw_margin_OK in HdB as (l' & t' & tr' & sB & Hl' & [= <-] & Hd & ->).
  destruct (grows_all_lookup _ _ _ _ _ GB HiB) as (s & His & GsB).
  exists s. split; [done|]. split.
  { eapply grows_trans; [exact GsA|].
    eapply grows_trans; [by eapply draw_frames_grows|done]. }
  intros l fr bb x1 x2 y1 y2 Hl Hbb Hfr E Hfit f y x Hsel Hy Hx Hsome.
  rewrite Hl in Hl'. injection Hl' as <-.
  destruct GsA as (Hh & Hw & Hn & Hp).
  rewrite <- Hw, <- Hh in Hfit. rewrite <- Hn in Hsel.
  destruct (draw_frames_paints _ _ _ _ _ _ _ _ _ _ _ Hd Hbb Hfr E Hfit
              f y x Hsel Hy Hx) as (v & Hv & Hne).
  { destruct Hsome as [v0 Hv0]. specialize (Hp f y x). rewrite Hv0 in Hp.
    destruct Hp as (v' & Hv' & _). eauto. }
  by eapply grows_pixel.
Qed.

End Drawing.

(** ** Allocation *)

Lemma zeros_ok n h w :
  0 <= n → 0 <= h → 0 <= w → zeros n h w = ret (zero_stack n h w).
Proof.
  intros. unfold zeros. destruct (_ || _) eqn:E; [lia|done].
Qed.

Lemma zeros_OK n h w tr s :
  zeros n h w = (tr, OK s) →
  tr = [] ∧ s = zero_stack n h w ∧ 0 <= n ∧ 0 <= h ∧ 0 <= w.
Proof.
  unfold zeros. destruct (_ || _) eqn:E; [discriminate|].
  intros [= <- <-]. split_and!; try done; lia.
Qed.

Lemma shape_zero_stack n h w : 0 <= n → shape (zero_stack n h w) = (n, h, w).
Proof.
  intros. unfold shape, zero_stack. simpl. rewrite length_replicate.
  by rewrite Z2Nat.id.
Qed.

Lemma pixel_zero_stack n h w (f y x : nat) :
  Z.of_nat f < n → Z.of_nat y < h → Z.of_nat x < w →
  pixel (zero_stack n h w) f y x = Some 0.
Proof.
  intros. unfold pixel, zero_stack. simpl.
  rewrite lookup_replicate_2 by lia. simpl.
  rewrite lookup_replicate_2 by lia. simpl.
  by rewrite lookup_replicate_2 by lia.
Qed.

Lemma wf_zero_stack n h w : 0 <= h → 0 <= w → wf_stack (zero_stack n h w).
Proof.
  intros. split_and!; try done. simpl.
  apply Forall_replicate. split; [by rewrite length_replicate|].
  apply Forall_replicate. by rewrite length_replicate.
Qed.

Lemma Forall_dict_set (Pk : Q → Prop) (Pv : ndarray → Prop) k v d :
  Pk k → Pv v →
  Forall (λ ms, Pk ms.1 ∧ Pv ms.2) d →
  Forall (λ ms, Pk ms.1 ∧ Pv ms.2) (dict_set k v d).
Proof.
  intros Hk Hv. induction 1 as [|[k' v'] d [Hk' Hv'] Hd IH]; simpl.
  - by repeat constructor.
  - destruct (Qeq_bool k' k); constructor; auto.
Qed.

(** Every allocated stack is the zero stack of the metadata, under a key
    taken from [margins]. *)
Lemma alloc_stacks_OK (Pk : Q → Prop) m margins tr st :
  Forall Pk margins →
  alloc_stacks m margins = (tr, OK st) →
  Forall (λ ms, Pk ms.1
                ∧ (ms.2 = zero_stack (n_frames m) (height m) (width m)
                   ∧ 0 <= n_frames m ∧ 0 <= height m ∧ 0 <= width m)) st.
Proof.
  intros HP H.
  set (P := λ ms : Q * ndarray,
         Pk ms.1 ∧ (ms.2 = zero_stack (n_frames m) (height m) (width m)
                     ∧ 0 <= n_frames m ∧ 0 <= height m ∧ 0 <= width m)).
  enough (∀ acc tr st,
            foldM (λ stacks margin,
                     s <- zeros (n_frames m) (height m) (width m);;
                     ret (dict_set margin s stacks)) acc margins = (tr, OK st) →
            Forall P acc → Forall P st) as Hgen.
  { eapply Hgen; [exact H|constructor]. }
  clear H tr st.
  induction HP as [|mg margins Hmg HP IH]; intros acc tr st H Hacc; simpl in H.
  - by injection H as <- <-.
  - apply bind_OK in H as (tr1 & acc' & tr2 & H1 & H2 & _).
    apply bind_OK in H1 as (tr3 & s & tr4 & H3 & H4 & _).
    injection H4 as <- <-. apply zeros_OK in H3 as (_ & -> & ? & ? & ?).
    eapply IH; [exact H2|].
    apply (Forall_dict_set Pk (λ v, v = zero_stack (n_frames m) (height m) (width m)
                                    ∧ 0 <= n_frames m ∧ 0 <= height m
                                    ∧ 0 <= width m)); auto.
Qed.

(** ** Synthetic tracks in the compositor *)

Lemma elem_of_items bboxes (c : collection) it :
  c ∈ bboxes → it ∈ c → it ∈ items bboxes.
Proof.
  intros Hc Hit. unfold items. apply list_elem_of_In, in_concat.
  exists c. split; apply list_elem_of_In; [|done].
  apply list_elem_of_filter. split; [|done].
  intros ->. by apply not_elem_of_nil in Hit.
Qed.

(** Every entry that the synthesizer stores is a track of one box under the
    frame key [None], named by an integer. *)
Lemma empty_bbox_OK area ic tr en :
  empty_bbox area ic = (tr, OK en) →
  ∃ (i : nat) bb, en = (Some (Z.of_nat i), Track [(FrNone, bb)]).
Proof.
  unfold empty_bbox. destruct ic as [i [cx cy|k]]; [|discriminate].
  destruct (empty_size area) as [[w h]|]; [|discriminate].
  intros [= <- <-]. eauto.
Qed.

Lemma make_empty_bboxes_OK coords area tr e k r :
  make_empty_bboxes coords area = (tr, OK e) → (k, r) ∈ e →
  ∃ (i : nat) bb, k = Some (Z.of_nat i) ∧ r = Track [(FrNone, bb)].
Proof.
  unfold make_empty_bboxes. intros H Hin. apply mapM_OK in H.
  apply list_elem_of_lookup in Hin as [j Hj].
  destruct (Forall2_lookup_r _ _ _ _ _ H Hj) as (ic & _ & tr' & Hic).
  apply empty_bbox_OK in Hic as (i & bb & [= -> ->]). eauto.
Qed.

(** C1 (amended). A synthetic empty-site track holds its box under the frame
    key [None]; the compositor skips only the key [...], so the box reaches
    [insert_bb] with [frame=None], which selects all frames. Whenever the
    square of a margin fits the image, every pixel of its footprint is
    drawn (not 0) in every frame of that margin's output stack. *)
Theorem synthetic_boxes_drawn area coords file margins ignore_borders
    tr1 e tr2 stacks :
  make_empty_bboxes coords area = (tr1, OK e) →
  varying_margins_centered area [file; e] margins ignore_borders
    = (tr2, OK stacks) →
  ∀ k r, (k, r) ∈ e →
    ∃ bb, r = Track [(FrNone, bb)]
      ∧ ∀ m s l x1 x2 y1 y2,
          (m, s) ∈ stacks →
          rint_sqrt ((1 + m) * area) = Some l →
          extents bb (Some l) (Some l) true = (x1, x2, y1, y2) →
          0 <= x1 ∧ x2 <= wid s ∧ 0 <= y1 ∧ y2 <= hgt s →
          ∀ f y x : nat,
            (f < length (frames s))%nat →
            y1 <= Z.of_nat y < y2 → x1 <= Z.of_nat x < x2 →
            ∃ v, pixel s f y x = Some v ∧ v ≠ 0.
Proof.
  intros He Hrun k r Hin.
  destruct (make_empty_bboxes_OK _ _ _ _ _ _ He Hin) as (j & bb & -> & ->).
  exists bb. split; [done|].
  intros m s l x1 x2 y1 y2 Hs Hl E Hfit f y x Hf Hy Hx.
  unfold varying_margins_centered in Hrun.
  apply bind_OK in Hrun as (t1 & meta & t2 & _ & Hrun & _).
  apply bind_OK in Hrun as (t3 & st0 & t4 & Halloc & Hdraw & _).
  apply (alloc_stacks_OK (λ _, True)) in Halloc; [|by apply Forall_forall].
  apply list_elem_of_lookup in Hs as [i Hi].
  pose proof (draw_rois_grows _ _ _ _ _ _ Hdraw) as G.
  destruct (grows_all_lookup_r _ _ _ _ _ G Hi) as (s0 & Hi0 & (Hh & Hw & Hn & _)).
  rewrite Forall_lookup in Halloc.
  destruct (Halloc _ _ Hi0) as (_ & Hz & Hn0 & Hh0 & Hw0). simpl in Hz.
  assert ((Some (Z.of_nat j), Track [(FrNone, bb)]) ∈ items [file; e]) as Hit.
  { eapply elem_of_items; [|exact Hin]. right. left. }
  destruct (draw_rois_paints _ _ _ _ _ _ _ _ _ _ _ Hdraw Hit Hi0)
    as (s' & Hi' & _ & Hpaint).
  rewrite Hi in Hi'. injection Hi' as <-.
  apply (Hpaint l FrNone bb x1 x2 y1 y2); try done.
  - left.
  - apply hits_border_false. rewrite <- Hh, <- Hw. done.
  - rewrite Hz. rewrite Hz in Hh, Hw, Hn. simpl in Hh, Hw, Hn.
    rewrite length_replicate in Hn.
    rewrite pixel_zero_stack; [by eexists| lia..].
Qed.

(** C1, as stated, fails: the empty site at (3, 3) with area 4 is drawn
    with 1 at rows 2-3, columns 2-3 of both frames. *)
Lemma synthetic_box_is_drawn :
  ∃ e s,
    make_empty_bboxes [Coord 3 3] 4 = ([], OK e)
    ∧ varying_margins_centered 4 [meta_only; e] [0%Q] false
      = ([], OK [(0%Q, s)])
    ∧ pixel s 0 2 2 = Some 1 ∧ pixel s 1 3 3 = Some 1
    ∧ frames s = replicate 2 [[0; 0; 0; 0; 0; 0]; [0; 0; 0; 0; 0; 0];
                              [0; 0; 1; 1; 0; 0]; [0; 0; 1; 1; 0; 0];
                              [0; 0; 0; 0; 0; 0]; [0; 0; 0; 0; 0; 0]].
Proof. do 2 eexists. split_and!; reflexivity. Qed.

(** ** Where the metadata is read *)

Lemma bind_intro {A B} (m : M A) (k : A → M B) tr1 a tr2 b :
  m = (tr1, OK a) → k a = (tr2, OK b) → bind m k = (tr1 ++ tr2, OK b).
Proof. intros -> Hk. unfold bind. by rewrite Hk. Qed.

Lemma ret_bind {A B} (a : A) (k : A → M B) : bind (ret a) k = k a.
Proof. unfold bind, ret. by destruct (k a). Qed.

Lemma alloc_stacks_ok m margins :
  0 <= n_frames m → 0 <= height m → 0 <= width m →
  alloc_stacks m margins
  = ret (alloc_keys (zero_stack (n_frames m) (height m) (width m)) margins).
Proof.
  intros Hn Hh Hw. unfold alloc_stacks, alloc_keys.
  rewrite zeros_ok by done. generalize (@nil (Q * ndarray)).
  induction margins as [|mg margins IH]; intros acc; cbn [foldM fold_left];
    [done|].
  rewrite !ret_bind. apply IH.
Qed.

Lemma dict_set_key k v d :
  ∃ ms, ms ∈ dict_set k v d ∧ Qeq_bool ms.1 k = true.
Proof.
  induction d as [|[k' v'] d IH]; simpl.
  - exists (k, v). split; [left|]. apply Qeq_bool_iff. reflexivity.
  - destruct (Qeq_bool k' k) eqn:E.
    + exists (k', v). split; [left|done].
    + destruct IH as (ms & Hms & Hk). exists ms. split; [by right|done].
Qed.

Lemma dict_set_keeps k v d mg :
  (∃ ms, ms ∈ d ∧ Qeq_bool ms.1 mg = true) →
  ∃ ms, ms ∈ dict_set k v d ∧ Qeq_bool ms.1 mg = true.
Proof.
  induction d as [|[k' v'] d IH]; intros (ms & Hms & Hk).
  - by apply not_elem_of_nil in Hms.
  - simpl. apply elem_of_cons in Hms as [->|Hms].
    + destruct (Qeq_bool k' k); [exists (k', v)|exists (k', v')];
        (split; [left|done]).
    + destruct (Qeq_bool k' k).
      * exists ms. split; [by right|done].
      * destruct IH as (ms' & Hms' & Hk'); [by eauto|].
        exists ms'. split; [by right|done].
Qed.

(** There is a stack for every requested margin. *)
Lemma alloc_keys_covers z margins mg :
  mg ∈ margins →
  ∃ ms, ms ∈ alloc_keys z margins ∧ Qeq_bool ms.1 mg = true.
Proof.
  unfold alloc_keys. generalize (@nil (Q * ndarray)). intros acc Hin.
  assert (mg ∈ margins ∨ ∃ ms, ms ∈ acc ∧ Qeq_bool ms.1 mg = true) as H
    by by left.
  clear Hin. revert acc H.
  induction margins as [|k margins IH]; intros acc [Hin|Hacc]; simpl.
  - by apply not_elem_of_nil in Hin.
  - done.
  - apply IH. apply elem_of_cons in Hin as [->|Hin]; [right|by left].
    apply dict_set_key.
  - apply IH. right. by apply dict_set_keeps.
Qed.

Lemma alloc_keys_Forall (P : ndarray → Prop) z margins :
  P z → Forall (λ ms, P ms.2) (alloc_keys z margins).
Proof.
  intros Hz. unfold alloc_keys.
  enough (∀ acc : list (Q * ndarray),
            Forall (λ ms, P ms.2) acc →
            Forall (λ ms, P ms.2) (fold_left (λ st mg, dict_set mg z st) margins acc))
    as Hgen by (apply Hgen; constructor).
  induction margins as [|k margins IH]; intros acc Hacc; simpl; [done|].
  apply IH. clear IH. induction Hacc as [|[k' v'] d Hx Hd IHd]; simpl.
  - by repeat constructor.
  - destruct (Qeq_bool k' k); constructor; auto.
Qed.

(** C3 (amended). The metadata is read from the reserved key of the first
    collection only. When the first collection holds it, with dimensions
    that are not negative, allocation succeeds whatever the other
    collections are: one zero stack of shape (n_frames, height, width) for
    every margin. When the first collection does not hold it, the call
    raises KeyError, also when another collection does. *)
Theorem stack_meta_first_collection area first rest margins ignore_borders :
  match dict_get None first with
  | Some (Meta m) =>
      0 <= n_frames m → 0 <= height m → 0 <= width m →
      ∃ st,
        (mm <- stack_meta (first :: rest);; alloc_stacks mm margins)
        = ([], OK st)
        ∧ Forall (λ ms, ms.2 = zero_stack (n_frames m) (height m) (width m)
                        ∧ shape ms.2 = (n_frames m, height m, width m)) st
        ∧ ∀ mg, mg ∈ margins → ∃ ms, ms ∈ st ∧ Qeq_bool ms.1 mg = true
  | _ =>
      varying_margins_centered area (first :: rest) margins ignore_borders
      = ([], Raise KeyError)
  end.
Proof.
  destruct (dict_get None first) as [[m|t]|] eqn:Hget.
  - intros Hn Hh Hw. eexists. split_and!.
    + unfold stack_meta. rewrite Hget. simpl.
      rewrite alloc_stacks_ok by done. reflexivity.
    + apply (alloc_keys_Forall (λ s, s = _ ∧ shape s = _)).
      split; [done|by apply shape_zero_stack].
    + apply alloc_keys_covers.
  - unfold varying_margins_centered, stack_meta. by rewrite Hget.
  - unfold varying_margins_centered, stack_meta. by rewrite Hget.
Qed.

(** C3, as stated, fails: the metadata in the second collection is not
    found. *)
Lemma stack_meta_in_second_collection :
  dict_get None meta_only
    = Some (Meta {| n_frames := 2; width := 6; height := 6 |})
  ∧ varying_margins_centered 4 [[(Some 7, Track [])]; meta_only] [0%Q] false
    = ([], Raise KeyError).
Proof. split; reflexivity. Qed.

(** ** When the compositor returns *)

Section Returning.
Context (area : Q) (ignore_borders : bool).

Lemma draw_frames_total l n t :
  Forall (λ e, valid_frame n e.1) t →
  ∀ s, length (frames s) = n →
  ∃ tr s', draw_frames ignore_borders l s t = (tr, OK s').
Proof.
  unfold draw_frames.
  induction 1 as [|[fr bb] t Hfr Ht IH]; intros s Hn; cbn [foldM].
  - by do 2 eexists.
  - assert (∃ tr1 s1,
              match fr with
              | FrEllipsis => ret s
              | _ => insert_bb s bb (Some l) (Some l) fr true ignore_borders
              end = (tr1, OK s1) ∧ length (frames s1) = n)
      as (tr1 & s1 & H1 & Hn1).
    { simpl in Hfr. rewrite <- Hn in Hfr.
      destruct fr.
      - destruct (insert_bb_total s bb (Some l) (Some l) FrNone true
                    ignore_borders Hfr) as (tr1 & s1 & H1).
        exists tr1, s1. split; [done|].
        apply insert_bb_grows in H1 as (_ & _ & Hlen & _). congruence.
      - by exists [], s.
      - destruct (insert_bb_total s bb (Some l) (Some l) (FrInt i) true
                    ignore_borders Hfr) as (tr1 & s1 & H1).
        exists tr1, s1. split; [done|].
        apply insert_bb_grows in H1 as (_ & _ & Hlen & _). congruence. }
    destruct (IH s1 Hn1) as (tr2 & s2 & H2).
    exists (tr1 ++ tr2), s2. by eapply bind_intro.
Qed.

Lemma draw_margin_total n t ms :
  Forall (λ e, valid_frame n e.1) t → drawable area n ms →
  ∃ tr ms', draw_margin area ignore_borders (Track t) ms = (tr, OK ms').
Proof.
  intros Ht [Hq Hn]. destruct ms as [m s]. simpl in *.
  destruct (rint_sqrt_Some _ Hq) as [l Hl].
  destruct (draw_frames_total l n t Ht s Hn) as (tr & s' & Hd).
  exists tr, (m, s'). unfold draw_margin, bb_length. rewrite Hl, ret_bind.
  rewrite <- (app_nil_r tr). eapply bind_intro; [exact Hd|done].
Qed.

Lemma mapM_total {A B} (f : A → M B) xs :
  Forall (λ x, ∃ tr y, f x = (tr, OK y)) xs →
  ∃ tr ys, mapM f xs = (tr, OK ys).
Proof.
  induction 1 as [|x xs (tr1 & y & Hy) _ (tr2 & ys & Hys)]; cbn [mapM].
  - by do 2 eexists.
  - exists (tr1 ++ (tr2 ++ [])), (y :: ys).
    eapply bind_intro; [exact Hy|]. by eapply bind_intro.
Qed.

Lemma draw_roi_total n it st :
  valid_item n it → Forall (drawable area n) st →
  ∃ tr st', draw_roi area ignore_borders st it = (tr, OK st').
Proof.
  destruct it as [[k|] r]; unfold valid_item; simpl.
  - intros (t & -> & Ht) Hst. apply mapM_total.
    eapply Forall_impl; [exact Hst|]. intros ms. by apply draw_margin_total.
  - intros _ _. by do 2 eexists.
Qed.

Lemma grows_all_drawable n st st' :
  grows_all st st' → Forall (drawable area n) st → Forall (drawable area n) st'.
Proof.
  intros G Hst. apply Forall_lookup. intros i [m s'] Hi.
  destruct (grows_all_lookup_r _ _ _ _ _ G Hi) as (s & Hi0 & (_ & _ & Hlen & _)).
  rewrite Forall_lookup in Hst. destruct (Hst _ _ Hi0) as [Hq Hn].
  split; simpl in *; [done|congruence].
Qed.

Lemma draw_rois_total n its :
  Forall (valid_item n) its →
  ∀ st, Forall (drawable area n) st →
  ∃ tr st', foldM (draw_roi area ignore_borders) st its = (tr, OK st').
Proof.
  induction 1 as [|it its Hit _ IH]; intros st Hst; cbn [foldM].
  - by do 2 eexists.
  - destruct (draw_roi_total n it st Hit Hst)
      as (tr1 & st1 & H1).
    destruct (IH st1) as (tr2 & st2 & H2).
    { eapply grows_all_drawable; [by eapply draw_roi_grows|done]. }
    exists (tr1 ++ tr2), st2. by eapply bind_intro.
Qed.

End Returning.

(** With the metadata in the first collection, margins that keep the area
    from going negative and tracks whose frames exist, the compositor
    returns, with one stack per allocated key, each grown from zero. *)
Lemma varying_margins_centered_total area first rest margins ignore_borders m :
  dict_get None first = Some (Meta m) →
  0 <= n_frames m → 0 <= height m → 0 <= width m →
  Forall (λ mg, (0 <= (1 + mg) * area)%Q) margins →
  Forall (valid_item (Z.to_nat (n_frames m))) (items (first :: rest)) →
  ∃ tr st,
    varying_margins_centered area (first :: rest) margins ignore_borders
    = (tr, OK st)
    ∧ grows_all (alloc_keys (zero_stack (n_frames m) (height m) (width m))
                   margins) st.
Proof.
  intros Hget Hn Hh Hw Hmg Hits.
  pose proof (alloc_stacks_ok m margins Hn Hh Hw) as Ha.
  pose proof (alloc_stacks_OK _ m margins _ _ Hmg Ha) as Hst.
  destruct (draw_rois_total area ignore_borders _ _ Hits
              (alloc_keys (zero_stack (n_frames m) (height m) (width m)) margins))
    as (tr & st & Hd).
  { eapply Forall_impl; [exact Hst|]. intros [mg s] (Hq & Hz & _).
    simpl in Hz. subst s. split; [done|].
    simpl. by rewrite length_replicate. }
  exists tr, st. split; [|by eapply draw_rois_grows].
  unfold varying_margins_centered, stack_meta. rewrite Hget, ret_bind, Ha, ret_bind.
  exact Hd.
Qed.

(** ** Margins *)


Lemma extents_side bb l x1 x2 y1 y2 :
  extents bb (Some l) (Some l) true = (x1, x2, y1, y2) →
  x2 - x1 = l ∧ y2 - y1 = l.
Proof. unfold extents, bb_size. simpl. intros [= <- <- <- <-]. lia. Qed.




(** ** The loop over input files *)

(** Once [empty] holds the dict of synthetic tracks, the next turn of the
    loop passes that dict to [make_empty_bboxes], which subscripts its
    first key. *)
Lemma main_step_dict_raises read_bboxes area margin ignore_borders d p b :
  d ≠ [] → read_bboxes p = OK b →
  main_step read_bboxes area margin ignore_borders (PyDict d) p
  = ([], Raise TypeError).
Proof.
  intros Hd Hp. unfold main_step. rewrite Hp.
  change (lift (OK b)) with (ret b). rewrite ret_bind.
  unfold truthy. rewrite bool_decide_eq_true_2 by done.
  destruct d as [|[k r] d]; [done|]. reflexivity.
Qed.

(** With coordinates of empty sites, the first turn of the loop, when it
    returns, leaves a dict in [empty]. *)
Lemma main_step_coords_OK read_bboxes area margin ignore_borders cs p tr e :
  cs ≠ [] →
  main_step read_bboxes area margin ignore_borders (PyCoords cs) p
    = (tr, OK e) →
  ∃ d, e = PyDict d ∧ d ≠ [].
Proof.
  intros Hcs H. unfold main_step in H.
  apply bind_OK in H as (t1 & b & t2 & _ & H & _).
  unfold truthy in H. rewrite bool_decide_eq_true_2 in H by done.
  apply bind_OK in H as (t3 & e' & t4 & He & H & _).
  apply bind_OK in H as (t5 & st & t6 & _ & H & _).
  apply bind_OK in H as (t7 & u & t8 & _ & H & _).
  injection H as _ <-.
  unfold iterate in He. rewrite ret_bind in He.
  apply bind_OK in He as (t9 & d & t10 & Hd & He & _).
  injection He as _ <-. exists d. split; [done|].
  unfold make_empty_bboxes in Hd. apply mapM_OK, Forall2_length in Hd.
  unfold enumerate in Hd. rewrite length_imap, length_fmap in Hd.
  destruct cs; [done|]. by destruct d.
Qed.

(** X6. With coordinates of empty sites and two or more input files,
    whenever the first file went through, [main] stops at the second one:
    with the exception of reading it when it cannot be read (line 287), and
    with TypeError otherwise (line 289). The trace is that of the first
    file. *)
Lemma main_second_file_raises read_bboxes area margin ignore_borders cs
    p1 p2 rest tr e :
  cs ≠ [] →
  main_step read_bboxes area margin ignore_borders (PyCoords cs) p1
    = (tr, OK e) →
  main read_bboxes (p1 :: p2 :: rest) area margin ignore_borders (PyCoords cs)
  = (tr, Raise match read_bboxes p2 with
               | OK _ => TypeError
               | Raise ex => ex
               end).
Proof.
  intros Hcs H1.
  destruct (main_step_coords_OK _ _ _ _ _ _ _ _ Hcs H1) as (d & -> & Hd).
  unfold main. cbn [foldM]. rewrite H1. unfold bind at 2.
  destruct (read_bboxes p2) as [b2|ex] eqn:Hp2.
  - rewrite (main_step_dict_raises _ _ _ _ _ _ _ Hd Hp2). simpl.
    by rewrite app_nil_r.
  - unfold main_step at 1. rewrite Hp2. simpl. by rewrite app_nil_r.
Qed.

(** C2. Two input files with the same content and one empty site: the file
    "b.pickle" processed alone gives its stack; processed after "a.pickle"
    it gives none, because [empty] was rebound to the dict of synthetic
    tracks in the first turn and [make_empty_bboxes] raises TypeError on
    it in the second. *)
Theorem main_second_file_depends_on_first :
  let read_bboxes := λ _ : string, OK meta_only in
  main read_bboxes ["b.pickle"] 4 [0%Q] false (PyCoords [(3, 3)])
    = ([Savez "b.pickle" 0 site_stack], OK tt)
  ∧ main read_bboxes ["a.pickle"; "b.pickle"] 4 [0%Q] false (PyCoords [(3, 3)])
    = ([Savez "a.pickle" 0 site_stack], Raise TypeError).
Proof. split; reflexivity. Qed.

(** ** Instances *)


Lemma insert_bb_fits_witness :
  wf_stack (blank 1)
  ∧ extents box_inside (Some 2) (Some 2) true = (1, 3, 1, 3)
  ∧ valid_frame (length (frames (blank 1))) (FrInt 0)
  ∧ (0 <= 1 ∧ 3 <= wid (blank 1) ∧ 0 <= 1 ∧ 3 <= hgt (blank 1))
  ∧ (∃ stack',
       insert_bb (blank 1) box_inside (Some 2) (Some 2) (FrInt 0) true false
       = ([], OK stack')
       ∧ pixel stack' 0 1 2 = Some 1)
  ∧ 1 <= 3
  ∧ ((insert_bb (blank 1) box_inside (Some 2) (Some 2) (FrInt 0) true
        false).1 ≠ []
     ↔ ¬ (0 <= 1 <= wid (blank 1) ∧ 0 <= 3 <= wid (blank 1)
          ∧ 0 <= 1 <= hgt (blank 1) ∧ 0 <= 3 <= hgt (blank 1))).
Proof.
  assert (wf_stack (blank 1)) as Hwf.
  { apply (wf_zero_stack 1 4 6); lia. }
  assert (valid_frame (length (frames (blank 1))) (FrInt 0)) as Hfr.
  { unfold valid_frame. simpl. lia. }
  assert (0 <= 1 ∧ 3 <= wid (blank 1) ∧ 0 <= 1 ∧ 3 <= hgt (blank 1)) as Hin.
  { simpl. lia. }
  split; [exact Hwf|]. split; [reflexivity|]. split; [exact Hfr|].
  split; [exact Hin|].
  destruct (insert_bb_fits (blank 1) box_inside (Some 2) (Some 2) (FrInt 0)
              true false 1 3 1 3 Hwf eq_refl) as [Hfit Hiff].
  split.
  - destruct (Hfit Hfr Hin) as (s' & Hs' & _ & Hpx).
    exists s'. split; [exact Hs'|].
    apply Hpx; [simpl; lia|reflexivity|lia|lia].
  - split; [lia|]. apply Hiff; lia.
Defined.

Lemma extents_identity_witness :
  x_max box_inside - x_min box_inside = 3 - 1
  ∧ y_max box_inside - y_min box_inside = 3 - 1
  ∧ ∃ x1 x2 y1 y2,
      extents box_inside (Some 3) (Some 3) false = (x1, x2, y1, y2)
      ∧ x1 = x_min box_inside ∧ x2 = x_max box_inside + 1
      ∧ y1 = y_min box_inside ∧ y2 = y_max box_inside + 1
      ∧ ∀ x y, (x1 <= x < x2 ∧ y1 <= y < y2)
               ↔ (x_min box_inside <= x <= x_max box_inside
                  ∧ y_min box_inside <= y <= y_max box_inside).
Proof.
  split; [reflexivity|]. split; [reflexivity|].
  apply (extents_identity box_inside 3 3); reflexivity.
Defined.



Lemma synthetic_boxes_drawn_witness :
  make_empty_bboxes [Coord 3 3] 4
    = ([], OK [(Some 0, Track [(FrNone, empty_box 2 2 (3, 3))])])
  ∧ varying_margins_centered 4
      [meta_only; [(Some 0, Track [(FrNone, empty_box 2 2 (3, 3))])]]
      [0%Q] false
    = ([], OK [(0%Q, site_stack)])
  ∧ ∃ v, pixel site_stack 1 2 3 = Some v ∧ v ≠ 0.
Proof.
  assert (make_empty_bboxes [Coord 3 3] 4
          = ([], OK [(Some 0, Track [(FrNone, empty_box 2 2 (3, 3))])]))
    as He by reflexivity.
  assert (varying_margins_centered 4
            [meta_only; [(Some 0, Track [(FrNone, empty_box 2 2 (3, 3))])]]
            [0%Q] false
          = ([], OK [(0%Q, site_stack)])) as Hrun by reflexivity.
  split; [exact He|]. split; [exact Hrun|].
  destruct (synthetic_boxes_drawn 4 [Coord 3 3] meta_only [0%Q] false
              [] _ [] _ He Hrun (Some 0)
              (Track [(FrNone, empty_box 2 2 (3, 3))]))
    as (bb & Hbb & Hdrawn); [left|].
  injection Hbb as <-.
  apply (Hdrawn 0%Q site_stack 2 2 4 2 4);
    [left|reflexivity|reflexivity|simpl; lia|simpl; lia|lia|lia].
Defined.

Lemma stack_meta_first_collection_witness :
  ∃ st,
    (mm <- stack_meta [meta_only; [(Some 7, Track [])]];;
     alloc_stacks mm [0%Q; (1 # 4)%Q])
    = ([], OK st)
    ∧ Forall (λ ms, ms.2 = zero_stack 2 6 6 ∧ shape ms.2 = (2, 6, 6)) st
    ∧ ∀ mg, mg ∈ [0%Q; (1 # 4)%Q] →
            ∃ ms, ms ∈ st ∧ Qeq_bool ms.1 mg = true.
Proof.
  pose proof (stack_meta_first_collection 4 meta_only [[(Some 7, Track [])]]
                [0%Q; (1 # 4)%Q] false) as H.
  simpl in H. apply H; lia.
Defined.

(** * Further properties *)

(** ** Invariants of the compositor *)

Lemma Forall2_Forall_step {A B} (R : A → B → Prop) (P : A → Prop)
    (Q : B → Prop) xs ys :
  (∀ x y, R x y → P x → Q y) → Forall2 R xs ys → Forall P xs → Forall Q ys.
Proof.
  intros H. induction 1 as [|x y xs ys Hxy _ IH]; intros HP; [constructor|].
  inversion HP; subst. constructor; eauto.
Qed.

Lemma draw_frames_inv (I : ndarray → Prop) ignore_borders l t s tr s' :
  (∀ stack bb fr tr' stack',
     I stack →
     insert_bb stack bb (Some l) (Some l) fr true ignore_borders
       = (tr', OK stack') →
     I stack') →
  draw_frames ignore_borders l s t = (tr, OK s') → I s → I s'.
Proof.
  intros Hstep Hd. unfold draw_frames in Hd.
  eapply (foldM_inv (λ a b : ndarray, I a → I b)); [auto|auto| |exact Hd].
  intros a [fr bb] tr4 a' Hins Ha.
  destruct fr; [by eapply Hstep| |by eapply Hstep].
  by injection Hins as <- <-.
Qed.

(** A property of stacks that [np.zeros] establishes and every call of
    [insert_bb] made by the compositor keeps holds for every returned
    stack. *)
Lemma compositor_inv (I : ndarray → Prop) area ignore_borders bboxes margins
    tr stacks :
  (∀ n h w, 0 <= n → 0 <= h → 0 <= w → I (zero_stack n h w)) →
  (∀ stack bb l fr tr' stack',
     I stack →
     insert_bb stack bb (Some l) (Some l) fr true ignore_borders
       = (tr', OK stack') →
     I stack') →
  varying_margins_centered area bboxes margins ignore_borders
    = (tr, OK stacks) →
  Forall (λ ms, I ms.2) stacks.
Proof.
  intros Hzero Hstep Hrun. unfold varying_margins_centered in Hrun.
  apply bind_OK in Hrun as (t1 & meta & t2 & _ & Hrun & _).
  apply bind_OK in Hrun as (t3 & st0 & t4 & Halloc & Hdraw & _).
  apply (alloc_stacks_OK (λ _, True)) in Halloc; [|by apply Forall_forall].
  assert (Forall (λ ms : Q * ndarray, I ms.2) st0) as H0.
  { eapply Forall_impl; [exact Halloc|].
    intros [m s] (_ & Hz & ? & ? & ?). simpl in *. subst s. by apply Hzero. }
  revert H0.
  eapply (foldM_inv (λ a b : list (Q * ndarray),
                       Forall (λ ms, I ms.2) a → Forall (λ ms, I ms.2) b));
    [auto|auto| |exact Hdraw].
  intros st [[k|] r] tr' st' Hroi; simpl in Hroi.
  - apply mapM_OK in Hroi. apply Forall2_Forall_step with (2 := Hroi).
    intros [m s] ms' [tr'' Hm] Hs. simpl in Hs.
    apply draw_margin_OK in Hm as (l & t & tr3 & s' & _ & _ & Hd & ->). simpl.
    eapply draw_frames_inv; [|exact Hd|exact Hs]. intros; by eapply Hstep.
  - by injection Hroi as <- <-.
Qed.

Lemma pixel_zero_stack_inv n h w f y x v :
  pixel (zero_stack n h w) f y x = Some v → v = 0.
Proof.
  unfold pixel, zero_stack. simpl. intros H.
  destruct (replicate (Z.to_nat n) _ !! f) as [fr|] eqn:Hf; [|discriminate].
  apply lookup_replicate in Hf as [-> _]. simpl in H.
  destruct (replicate (Z.to_nat h) _ !! y) as [row|] eqn:Hy; [|discriminate].
  apply lookup_replicate in Hy as [-> _]. simpl in H.
  by apply lookup_replicate in H as [-> _].
Qed.

Lemma setitem_values (P : Z → Prop) s frame y1 y2 x1 x2 val tr s' :
  P val → values_in P s →
  setitem s frame y1 y2 x1 x2 val = (tr, OK s') → values_in P s'.
Proof.
  intros Hval Hs H f y x v.
  destruct (setitem_pixel _ _ _ _ _ _ _ _ _ H) as (_ & _ & _ & _ & Hpx).
  rewrite Hpx. destruct (pixel s f y x) as [v0|] eqn:Hv0; [|discriminate].
  simpl. intros [= <-]. destruct (painted _ _ _ _ _ _ _ _ _); [done|].
  by eapply Hs.
Qed.

Lemma insert_bb_values (P : Z → Prop) stack bb bb_width bb_height frame
    weighted ignore_borders tr stack' :
  P 1 → (ignore_borders = true → P 2) → values_in P stack →
  insert_bb stack bb bb_width bb_height frame weighted ignore_borders
    = (tr, OK stack') →
  values_in P stack'.
Proof.
  intros H1 H2 Hs.
  destruct (extents bb bb_width bb_height weighted) as [[[x1 x2] y1] y2] eqn:E.
  insert_bb_outcomes E as a b c d C.
  destruct (hits_border x1 x2 y1 y2 (wid stack) (hgt stack)).
  - destruct ignore_borders; simpl.
    + destruct (setitem stack (frame_selector frame) c d a b 2) as [tr' r] eqn:H.
      simpl. intros [= <- ->]. eapply setitem_values; [|exact Hs|exact H]. auto.
    + by intros [= <- <-].
  - intros H. by eapply setitem_values; [|exact Hs|exact H].
Qed.

(** X1. Every entry of every stack that the compositor returns is 0, 1 or
    2, and 2 occurs only with [ignore_borders]: without it the stacks are
    binary. *)
Theorem stacks_values area bboxes margins ignore_borders tr stacks :
  varying_margins_centered area bboxes margins ignore_borders
    = (tr, OK stacks) →
  ∀ m s f y x v,
    (m, s) ∈ stacks → pixel s f y x = Some v →
    v = 0 ∨ v = 1 ∨ (ignore_borders = true ∧ v = 2).
Proof.
  intros Hrun m s f y x v Hin Hv.
  set (P := λ v : Z, v = 0 ∨ v = 1 ∨ (ignore_borders = true ∧ v = 2)).
  assert (Forall (λ ms : Q * ndarray, values_in P ms.2) stacks) as Hall.
  { eapply compositor_inv; [| |exact Hrun].
    - intros n h w _ _ _ f' y' x' v' Hz. left. by eapply pixel_zero_stack_inv.
    - intros stack bb l fr tr' stack' Hs Hins.
      eapply insert_bb_values; [| |exact Hs|exact Hins]; unfold P; auto. }
  rewrite Forall_forall in Hall. by apply (Hall _ Hin f y x v).
Qed.

Lemma fill_frame_wf s y1 y2 x1 x2 val (fr : list (list Z)) :
  length fr = Z.to_nat (hgt s)
  ∧ Forall (λ row, length row = Z.to_nat (wid s)) fr →
  length (fill_frame s y1 y2 x1 x2 val fr) = Z.to_nat (hgt s)
  ∧ Forall (λ row, length row = Z.to_nat (wid s))
      (fill_frame s y1 y2 x1 x2 val fr).
Proof.
  intros [Hlen Hrows]. unfold fill_frame. split; [by rewrite length_imap|].
  apply Forall_lookup. intros i row Hi.
  rewrite list_lookup_imap in Hi.
  destruct (fr !! i) as [row0|] eqn:Hrow0; [|discriminate].
  rewrite Forall_lookup in Hrows. specialize (Hrows _ _ Hrow0).
  simpl in Hi. injection Hi as <-.
  destruct (in_slice (hgt s) y1 y2 i); [|done].
  unfold fill_row. by rewrite length_imap.
Qed.

Lemma setitem_wf s frame y1 y2 x1 x2 val tr s' :
  wf_stack s → setitem s frame y1 y2 x1 x2 val = (tr, OK s') → wf_stack s'.
Proof.
  intros (Hh & Hw & Hfr). unfold setitem. destruct frame as [|i].
  - intros [= <- <-]. split_and!; try done. simpl.
    apply Forall_fmap. eapply Forall_impl; [exact Hfr|].
    intros fr. apply fill_frame_wf.
  - destruct (_ || _); [discriminate|]. intros [= <- <-].
    split_and!; try done. simpl.
    apply Forall_alter; [done|]. intros fr _. apply fill_frame_wf.
Qed.

Lemma insert_bb_wf stack bb bb_width bb_height frame weighted ignore_borders
    tr stack' :
  wf_stack stack →
  insert_bb stack bb bb_width bb_height frame weighted ignore_borders
    = (tr, OK stack') →
  wf_stack stack'.
Proof.
  intros Hwf.
  destruct (extents bb bb_width bb_height weighted) as [[[x1 x2] y1] y2] eqn:E.
  insert_bb_outcomes E as a b c d C.
  destruct (hits_border x1 x2 y1 y2 (wid stack) (hgt stack)).
  - destruct ignore_borders; simpl.
    + destruct (setitem stack (frame_selector frame) c d a b 2) as [tr' r] eqn:H.
      simpl. intros [= <- ->]. by eapply setitem_wf.
    + by intros [= <- <-].
  - intros H. by eapply setitem_wf.
Qed.

Lemma stack_meta_OK bboxes tr m :
  stack_meta bboxes = (tr, OK m) →
  ∃ first rest, bboxes = first :: rest ∧ dict_get None first = Some (Meta m).
Proof.
  unfold stack_meta. destruct bboxes as [|first rest]; [discriminate|].
  destruct (dict_get None first) as [[m'|t]|] eqn:Hget; try discriminate.
  intros [= <- <-]. eauto.
Qed.

(** X2. Whenever the compositor returns, the metadata is in the first
    collection and every returned stack is a well-shaped array of shape
    (n_frames, height, width) of that metadata. *)
Theorem stacks_shape area bboxes margins ignore_borders tr stacks :
  varying_margins_centered area bboxes margins ignore_borders
    = (tr, OK stacks) →
  ∃ first rest m,
    bboxes = first :: rest ∧ dict_get None first = Some (Meta m)
    ∧ ∀ mg s, (mg, s) ∈ stacks →
        shape s = (n_frames m, height m, width m) ∧ wf_stack s.
Proof.
  intros Hrun.
  assert (Forall (λ ms : Q * ndarray, wf_stack ms.2) stacks) as Hwf.
  { eapply compositor_inv; [| |exact Hrun].
    - intros n h w _ Hh Hw. by apply wf_zero_stack.
    - intros stack bb l fr tr' stack' Hs Hins. by eapply insert_bb_wf. }
  unfold varying_margins_centered in Hrun.
  apply bind_OK in Hrun as (t1 & m & t2 & Hmeta & Hrun & _).
  apply bind_OK in Hrun as (t3 & st0 & t4 & Halloc & Hdraw & _).
  destruct (stack_meta_OK _ _ _ Hmeta) as (first & rest & -> & Hget).
  exists first, rest, m. split_and!; try done.
  intros mg s Hin. split; [|rewrite Forall_forall in Hwf; by apply (Hwf _ Hin)].
  apply (alloc_stacks_OK (λ _, True)) in Halloc; [|by apply Forall_forall].
  apply list_elem_of_lookup in Hin as [i Hi].
  pose proof (draw_rois_grows _ _ _ _ _ _ Hdraw) as G.
  destruct (grows_all_lookup_r _ _ _ _ _ G Hi) as (s0 & Hi0 & (Hh & Hw & Hn & _)).
  rewrite Forall_lookup in Halloc.
  destruct (Halloc _ _ Hi0) as (_ & Hz & Hn0 & Hh0 & Hw0). simpl in Hz. subst s0.
  unfold shape. rewrite Hh, Hw, Hn. by apply shape_zero_stack.
Qed.

(** ** The keys of the returned dict *)

Lemma alloc_stacks_inv m margins tr st :
  alloc_stacks m margins = (tr, OK st) →
  st = alloc_keys (zero_stack (n_frames m) (height m) (width m)) margins.
Proof.
  unfold alloc_stacks, alloc_keys. generalize (@nil (Q * ndarray)).
  revert tr. induction margins as [|mg margins IH]; intros tr acc H;
    cbn [foldM fold_left] in *.
  - by injection H as _ <-.
  - apply bind_OK in H as (tr1 & acc' & tr2 & H1 & H2 & _).
    apply bind_OK in H1 as (tr3 & s & tr4 & H3 & H4 & _).
    injection H4 as _ <-. apply zeros_OK in H3 as (_ & -> & _).
    by eapply IH.
Qed.

Lemma dict_set_fresh k0 k v d :
  Qeq_bool k0 k = false →
  Forall (λ ms : Q * ndarray, Qeq_bool k0 ms.1 = false) d →
  Forall (λ ms : Q * ndarray, Qeq_bool k0 ms.1 = false) (dict_set k v d).
Proof.
  intros Hk. induction 1 as [|[k' v'] d Hx Hd IH]; simpl.
  - by repeat constructor.
  - destruct (Qeq_bool k' k); constructor; auto.
Qed.

Lemma dict_set_distinct k v d : distinct_keys d → distinct_keys (dict_set k v d).
Proof.
  induction d as [|[k' v'] d IH]; simpl.
  - intros _. split; [constructor|done].
  - intros [Hfresh Hd]. destruct (Qeq_bool k' k) eqn:E; simpl.
    + done.
    + split; [by apply dict_set_fresh|auto].
Qed.

Lemma dict_set_keys_from (margins : list Q) k v d :
  k ∈ margins →
  Forall (λ ms : Q * ndarray, ms.1 ∈ margins) d →
  Forall (λ ms : Q * ndarray, ms.1 ∈ margins) (dict_set k v d).
Proof.
  intros Hk. induction 1 as [|[k' v'] d Hx Hd IH]; simpl.
  - by repeat constructor.
  - destruct (Qeq_bool k' k); constructor; auto.
Qed.

Lemma alloc_keys_spec z margins :
  distinct_keys (alloc_keys z margins)
  ∧ Forall (λ ms, ms.1 ∈ margins) (alloc_keys z margins).
Proof.
  unfold alloc_keys.
  enough (∀ ms0 acc,
            distinct_keys acc → Forall (λ ms : Q * ndarray, ms.1 ∈ ms0 ++ margins) acc →
            distinct_keys (fold_left (λ st mg, dict_set mg z st) margins acc)
            ∧ Forall (λ ms : Q * ndarray, ms.1 ∈ ms0 ++ margins)
                (fold_left (λ st mg, dict_set mg z st) margins acc)) as Hgen.
  { apply (Hgen [] []); [done|constructor]. }
  induction margins as [|mg margins IH]; intros ms0 acc Hd Hk; simpl; [done|].
  replace (ms0 ++ mg :: margins) with ((ms0 ++ [mg]) ++ margins) in *
    by (by rewrite <- app_assoc).
  apply IH; [by apply dict_set_distinct|].
  apply dict_set_keys_from; [|done].
  apply elem_of_app. left. apply elem_of_app. right. left.
Qed.

Lemma distinct_keys_lookup d (i j : nat) a b :
  distinct_keys d → (i < j)%nat → d !! i = Some a → d !! j = Some b →
  Qeq_bool a.1 b.1 = false.
Proof.
  revert i j. induction d as [|ms d IH]; intros i j Hdist Hij Hi Hj;
    [done|]. destruct Hdist as [Hfresh Hd].
  destruct j as [|j]; [lia|]. simpl in Hj. destruct i as [|i].
  - injection Hi as <-. rewrite Forall_lookup in Hfresh. by eapply Hfresh.
  - simpl in Hi. eapply IH; [done| |done..]. lia.
Qed.

(** X3. The returned dict has one stack per distinct margin: every
    requested margin has a stack under a key equal to it, every key is one
    of the requested margins, and no two keys are equal as numbers, so a
    margin given twice yields one stack. *)
Theorem stacks_keys area bboxes margins ignore_borders tr stacks :
  varying_margins_centered area bboxes margins ignore_borders
    = (tr, OK stacks) →
  (∀ mg, mg ∈ margins → ∃ k s, (k, s) ∈ stacks ∧ (k == mg)%Q)
  ∧ (∀ k s, (k, s) ∈ stacks → k ∈ margins)
  ∧ (∀ (i j : nat) k1 s1 k2 s2,
       (i < j)%nat → stacks !! i = Some (k1, s1) → stacks !! j = Some (k2, s2) →
       ¬ (k1 == k2)%Q).
Proof.
  intros Hrun. unfold varying_margins_centered in Hrun.
  apply bind_OK in Hrun as (t1 & m & t2 & _ & Hrun & _).
  apply bind_OK in Hrun as (t3 & st0 & t4 & Halloc & Hdraw & _).
  apply alloc_stacks_inv in Halloc. subst st0.
  pose proof (draw_rois_grows _ _ _ _ _ _ Hdraw) as G.
  set (z := zero_stack (n_frames m) (height m) (width m)) in *.
  destruct (alloc_keys_spec z margins) as [Hdist Hfrom].
  split_and!.
  - intros mg Hmg.
    destruct (alloc_keys_covers z margins mg Hmg) as ([k s0] & Hin & Hk).
    apply list_elem_of_lookup in Hin as [i Hi].
    destruct (grows_all_lookup _ _ _ _ _ G Hi) as (s & Hs & _).
    exists k, s. split; [by eapply list_elem_of_lookup_2|].
    by apply Qeq_bool_iff.
  - intros k s Hin. apply list_elem_of_lookup in Hin as [i Hi].
    destruct (grows_all_lookup_r _ _ _ _ _ G Hi) as (s0 & Hi0 & _).
    rewrite Forall_lookup in Hfrom. apply (Hfrom _ _ Hi0).
  - intros i j k1 s1 k2 s2 Hij Hi Hj Heq.
    destruct (grows_all_lookup_r _ _ _ _ _ G Hi) as (a & Hia & _).
    destruct (grows_all_lookup_r _ _ _ _ _ G Hj) as (b & Hjb & _).
    pose proof (distinct_keys_lookup _ _ _ _ _ Hdist Hij Hia Hjb) as Hne.
    simpl in Hne. apply Qeq_bool_iff in Heq. congruence.
Qed.

(** ** When insert_bb raises *)

Lemma setitem_result s frame y1 y2 x1 x2 val :
  (match frame with
   | SliceAll => True
   | Index i => - Z.of_nat (length (frames s)) <= i < Z.of_nat (length (frames s))
   end ∧ ∃ s', setitem s frame y1 y2 x1 x2 val = ([], OK s'))
  ∨ (¬ match frame with
       | SliceAll => True
       | Index i =>
           - Z.of_nat (length (frames s)) <= i < Z.of_nat (length (frames s))
       end
     ∧ setitem s frame y1 y2 x1 x2 val = ([], Raise IndexError)).
Proof.
  unfold setitem. destruct frame as [|i]; [left; eauto|].
  destruct (_ || _) eqn:E; [right|left]; (split; [lia|eauto]).
Qed.

(** X4. The only exception of [insert_bb] is IndexError, for an integer
    frame outside the stack, and it is raised only when the call gets as
    far as writing: a square that hits the border without [ignore_borders]
    is dropped silently even for a frame that does not exist. *)
Theorem insert_bb_raises stack bb bb_width bb_height frame weighted
    ignore_borders x1 x2 y1 y2 :
  extents bb bb_width bb_height weighted = (x1, x2, y1, y2) →
  let r := (insert_bb stack bb bb_width bb_height frame weighted
              ignore_borders).2 in
  let dropped := hits_border x1 x2 y1 y2 (wid stack) (hgt stack) = true
                 ∧ ignore_borders = false in
  ((∃ stack', r = OK stack')
   ↔ valid_frame (length (frames stack)) frame ∨ dropped)
  ∧ (r = Raise IndexError
     ↔ ¬ valid_frame (length (frames stack)) frame ∧ ¬ dropped)
  ∧ ∀ e, r = Raise e → e = IndexError.
Proof.
  intros E r dropped. subst r dropped. unfold valid_frame.
  insert_bb_outcomes E as a b c d C.
  destruct (hits_border x1 x2 y1 y2 (wid stack) (hgt stack)).
  - destruct ignore_borders; simpl.
    + destruct (setitem_result stack (frame_selector frame) c d a b 2)
        as [[Hv [s' ->]]|[Hv ->]]; simpl.
      * split_and!; [split; eauto|split; [done|tauto]|done].
      * split_and!.
        -- split; [by intros [? ?]|]. intros [?|[_ ?]]; done.
        -- split; [|done]. intros _. split; [done|]. by intros [_ ?].
        -- by intros e [= <-].
    + split_and!; [split; eauto|split; [done|]|done].
      intros [_ H]. by destruct H.
  - destruct (setitem_result stack (frame_selector frame) y1 y2 x1 x2 1)
      as [[Hv [s' ->]]|[Hv ->]]; simpl.
    + split_and!; [split; eauto|split; [done|tauto]|done].
    + split_and!.
      * split; [by intros [? ?]|]. intros [?|[? _]]; done.
      * split; [|done]. intros _. split; [done|]. by intros [? _].
      * by intros e [= <-].
Qed.

(** X7. The compositor returns, with no exception, whenever the metadata
    is under [None] in the first collection with dimensions that are not
    negative, no margin makes the area negative, and every item of every
    collection that is not under [None] is a track whose integer frame keys
    index the stack. *)
Theorem compositor_returns area first rest margins ignore_borders m :
  dict_get None first = Some (Meta m) →
  0 <= n_frames m → 0 <= height m → 0 <= width m →
  Forall (λ mg, (0 <= (1 + mg) * area)%Q) margins →
  Forall (valid_item (Z.to_nat (n_frames m))) (items (first :: rest)) →
  ∃ tr stacks,
    varying_margins_centered area (first :: rest) margins ignore_borders
    = (tr, OK stacks).
Proof.
  intros Hget Hn Hh Hw Hmg Hits.
  destruct (varying_margins_centered_total area first rest margins
              ignore_borders m Hget Hn Hh Hw Hmg Hits) as (tr & st & H & _).
  eauto.
Qed.

(** ** Rounding and sizes *)

(** [rint q] is within 1/2 of [q]. *)
Lemma rint_spec q :
  let n := Qnum q in
  let d := Zpos (Qden q) in
  - d <= 2 * (rint q * d - n) <= d.
Proof.
  intros n d. unfold rint. fold n d.
  assert (0 < d) as Hd by (subst d; lia).
  pose proof (Z.div_mod n d ltac:(lia)) as Hdm.
  pose proof (Z.mod_pos_bound n d Hd) as Hm.
  destruct (2 * (n mod d) ?= d) eqn:Hc.
  - apply Z.compare_eq in Hc. destruct (Z.even (n / d)); nia.
  - rewrite Z.compare_lt_iff in Hc. nia.
  - rewrite Z.compare_gt_iff in Hc. nia.
Qed.

(** X8. The area that [make_empty_bboxes] stores in its boxes, width times
    height, differs from the requested area by at most half the width. *)
Theorem stored_area_close area w h :
  empty_size area = Some (w, h) →
  (inject_Z (w * h) - area <= inject_Z w / 2)%Q
  ∧ (area - inject_Z (w * h) <= inject_Z w / 2)%Q.
Proof.
  unfold empty_size. destruct (rint_sqrt area) as [w'|] eqn:Hw; [|discriminate].
  simpl. destruct (w' =? 0) eqn:E0; [discriminate|]. intros [= <- <-].
  pose proof (rint_sqrt_spec _ _ Hw) as (_ & Hw0 & _).
  assert (0 < w') as Hpos by lia.
  pose proof (rint_spec (area / inject_Z w')) as Hr. cbv zeta in Hr.
  set (h := rint (area / inject_Z w')) in *.
  destruct w' as [|p|p]; try lia.
  destruct area as [n d]. unfold Qdiv, Qmult, Qinv, inject_Z in Hr.
  cbn [Qnum Qden] in Hr. rewrite Z.mul_1_r, Pos2Z.inj_mul in Hr.
  unfold Qle, Qminus, Qplus, Qopp, Qdiv, Qmult, Qinv, inject_Z.
  cbn [Qnum Qden]. rewrite ?Pos2Z.inj_mul. split; nia.
Qed.

Lemma rint_half z :
  rint (inject_Z z / 2)
  = if Z.even z then z / 2
    else if Z.even (z / 2) then z / 2 else z / 2 + 1.
Proof.
  unfold rint, Qdiv, Qmult, Qinv, inject_Z. cbn [Qnum Qden].
  rewrite Z.mul_1_r. change (Z.pos (1 * 2)) with 2.
  pose proof (Z.div_mod z 2 ltac:(lia)) as Hdm.
  pose proof (Z.mod_pos_bound z 2 ltac:(lia)) as Hm.
  destruct (Z.even z) eqn:He.
  - apply Z.even_spec in He as [k ->].
    replace (2 * k mod 2) with 0 by (rewrite Z.mul_comm, Z.mod_mul; lia).
    reflexivity.
  - assert (z mod 2 = 1) as ->.
    { rewrite Zmod_even, He. reflexivity. }
    reflexivity.
Qed.

(** X10. The square that the compositor draws for a synthetic empty site
    is centred on the coordinate when the rounded size of the site is even;
    when it is odd the centroid lies half a pixel further and rounds to the
    even one of [c] and [c + 1]. *)
Theorem synthetic_square_center area (i : nat) cx cy w h k bb l x1 x2 y1 y2 :
  empty_size area = Some (w, h) →
  empty_bbox area (i, Coord cx cy) = ([], OK (k, Track [(FrNone, bb)])) →
  extents bb (Some l) (Some l) true = (x1, x2, y1, y2) →
  let center c size :=
    if Z.even size then c else if Z.even c then c else c + 1 in
  x1 = center cx w - l / 2 ∧ x2 = x1 + l
  ∧ y1 = center cy h - l / 2 ∧ y2 = y1 + l.
Proof.
  intros Hs Hbb E center. unfold empty_bbox in Hbb. rewrite Hs in Hbb.
  injection Hbb as _ <-. revert E. unfold extents, bb_size.
  cbn [x_min x_max y_min y_max x_mean y_mean default].
  rewrite !rint_minus_inject_Z, !rint_half.
  intros [= <- <- <- <-].
  assert (∀ c s, (if Z.even (c - s / 2 + (c - s / 2 + s))
                  then (c - s / 2 + (c - s / 2 + s)) / 2
                  else if Z.even ((c - s / 2 + (c - s / 2 + s)) / 2)
                       then (c - s / 2 + (c - s / 2 + s)) / 2
                       else (c - s / 2 + (c - s / 2 + s)) / 2 + 1)
                 = center c s) as Hc.
  { intros c s. unfold center.
    pose proof (Z.div_mod s 2 ltac:(lia)) as Hdm.
    pose proof (Z.mod_pos_bound s 2 ltac:(lia)) as Hm.
    rewrite (Zmod_even s) in Hdm.
    replace (c - s / 2 + (c - s / 2 + s))
      with (2 * c + (if Z.even s then 0 else 1))
      by (destruct (Z.even s); lia).
    destruct (Z.even s).
    - rewrite Z.add_0_r, Z.even_mul. simpl.
      by rewrite Z.mul_comm, Z.div_mul by lia.
    - rewrite Z.even_add, Z.even_mul. simpl.
      replace ((2 * c + 1) / 2) with c; [done|].
      apply Z.div_unique with 1; lia. }
  rewrite !Hc. done.
Qed.

(** X11. In bounds-centred mode the square has the requested size and
    keeps the midpoint of the box to within half a pixel: the sum of its
    ends exceeds that of the box by 0 or 1. *)
Theorem bounds_centered_midpoint bb bb_width bb_height x1 x2 y1 y2 :
  extents bb bb_width bb_height false = (x1, x2, y1, y2) →
  x2 - x1 = (bb_size bb bb_width bb_height).1.2
  ∧ y2 - y1 = (bb_size bb bb_width bb_height).2
  ∧ 0 <= (x1 + x2) - (x_min bb + (x_max bb + 1)) <= 1
  ∧ 0 <= (y1 + y2) - (y_min bb + (y_max bb + 1)) <= 1.
Proof.
  unfold extents, bb_size. cbn [fst snd].
  intros [= <- <- <- <-].
  split_and!; Z.div_mod_to_equations; lia.
Qed.

(** ** Drawing twice, and what is skipped *)

Lemma imap_idemp {A} (f : nat → A → A) (l : list A) :
  (∀ i x, f i (f i x) = f i x) → imap f (imap f l) = imap f l.
Proof.
  intros Hf. apply list_eq. intros i. rewrite !list_lookup_imap.
  destruct (l !! i); simpl; [|done]. by rewrite Hf.
Qed.

Lemma fill_frame_idemp s y1 y2 x1 x2 val (fr : list (list Z)) :
  fill_frame s y1 y2 x1 x2 val (fill_frame s y1 y2 x1 x2 val fr)
  = fill_frame s y1 y2 x1 x2 val fr.
Proof.
  unfold fill_frame. apply imap_idemp. intros y row.
  destruct (in_slice (hgt s) y1 y2 y); [|done].
  unfold fill_row. apply imap_idemp. intros x v.
  by destruct (in_slice (wid s) x1 x2 x).
Qed.

Lemma fill_frame_dims s1 s2 y1 y2 x1 x2 val fr :
  hgt s1 = hgt s2 → wid s1 = wid s2 →
  fill_frame s1 y1 y2 x1 x2 val fr = fill_frame s2 y1 y2 x1 x2 val fr.
Proof. unfold fill_frame, fill_row. by intros -> ->. Qed.

Lemma setitem_idemp s frame y1 y2 x1 x2 val tr s' :
  setitem s frame y1 y2 x1 x2 val = (tr, OK s') →
  setitem s' frame y1 y2 x1 x2 val = (tr, OK s').
Proof.
  unfold setitem. destruct frame as [|i].
  - intros [= <- <-]. unfold ret, with_frames. simpl. do 3 f_equal.
    rewrite <- list_fmap_compose. apply list_fmap_ext.
    intros j fr _. simpl.
    rewrite (fill_frame_dims _ s) by done. apply fill_frame_idemp.
  - destruct (_ || _) eqn:E; [discriminate|]. intros [= <- <-].
    unfold with_frames. simpl. rewrite length_alter, E.
    unfold ret. do 3 f_equal. rewrite list_alter_alter_eq.
    apply list_alter_ext; [|done]. intros fr _. simpl.
    rewrite (fill_frame_dims _ s) by done. apply fill_frame_idemp.
Qed.

(** X14. Drawing the same box a second time changes nothing: the second
    call returns the stack of the first and emits the same diagnostic. *)
Theorem insert_bb_twice stack bb bb_width bb_height frame weighted
    ignore_borders tr stack' :
  insert_bb stack bb bb_width bb_height frame weighted ignore_borders
    = (tr, OK stack') →
  insert_bb stack' bb bb_width bb_height frame weighted ignore_borders
    = (tr, OK stack').
Proof.
  intros H. pose proof (insert_bb_grows _ _ _ _ _ _ _ _ _ H) as (Hh & Hw & _).
  destruct (extents bb bb_width bb_height weighted) as [[[x1 x2] y1] y2] eqn:E.
  destruct (clamp x1 x2 y1 y2 (wid stack) (hgt stack)) as [[[a b] c] d] eqn:C.
  rewrite (insert_bb_unfold _ _ _ _ _ _ _ _ _ _ _ _ _ _ _ E C) in H.
  assert (clamp x1 x2 y1 y2 (wid stack') (hgt stack') = (a, b, c, d)) as C'
    by (by rewrite Hh, Hw).
  rewrite (insert_bb_unfold _ _ _ _ _ _ _ _ _ _ _ _ _ _ _ E C'), Hh, Hw.
  destruct (hits_border x1 x2 y1 y2 (wid stack) (hgt stack)).
  - destruct ignore_borders; simpl in *; [|by injection H as <- <-].
    destruct (setitem stack (frame_selector frame) c d a b 2) as [tr' r] eqn:Hs.
    simpl in H. injection H as <- ->.
    by rewrite (setitem_idemp _ _ _ _ _ _ _ _ _ Hs).
  - exact (setitem_idemp _ _ _ _ _ _ _ _ _ H).
Qed.

(** X13. Entries of a track under the key [...] are never drawn: dropping
    them from the track changes neither the stack nor the diagnostics. *)
Theorem draw_frames_skips_ellipsis ignore_borders l s t :
  draw_frames ignore_borders l s t
  = draw_frames ignore_borders l s (filter (λ e, e.1 ≠ FrEllipsis) t).
Proof.
  unfold draw_frames. revert s.
  induction t as [|[fr bb] t IH]; intros s; [done|].
  destruct fr.
  - rewrite filter_cons_True by done. cbn [foldM].
    destruct (insert_bb s bb (Some l) (Some l) FrNone true ignore_borders)
      as [tr [s1|e]]; simpl; [|done]. by rewrite IH.
  - rewrite filter_cons_False by (simpl; auto). cbn [foldM].
    rewrite ret_bind. apply IH.
  - rewrite filter_cons_True by done. cbn [foldM].
    destruct (insert_bb s bb (Some l) (Some l) (FrInt i) true ignore_borders)
      as [tr [s1|e]]; simpl; [|done]. by rewrite IH.
Qed.

(** ** Files without empty sites *)

Lemma main_step_falsy read_bboxes area margin ignore_borders e p :
  truthy e = false →
  main_step read_bboxes area margin ignore_borders e p
  = (process_file read_bboxes area margin ignore_borders p;;; ret e).
Proof.
  intros He. unfold main_step, process_file. rewrite He.
  assert (as_collection e = []) as Hc.
  { destruct e as [|cs|d]; try done. simpl in He.
    apply bool_decide_eq_false in He. destruct d; [done|].
    exfalso. by apply He. }
  destruct (lift (read_bboxes p)) as [t1 [b|ex]]; simpl; [|done].
  rewrite Hc.
  destruct (varying_margins_centered area [b; []] margin ignore_borders)
    as [t2 [st|ex]]; simpl; [|done].
  destruct (export_squares st p) as [t3 [[]|ex]]; simpl; [|done].
  by rewrite !app_nil_r.
Qed.

(** X12. Without empty sites ([empty] is [None] or an empty list) the
    loop of [main] carries nothing from one file to the next: the run is
    the sequence of the files processed one by one, each from its own
    content, up to the first that raises. *)
Theorem main_without_empty_sites read_bboxes path area margin ignore_borders e :
  truthy e = false →
  main read_bboxes path area margin ignore_borders e
  = foldM (λ _ p, process_file read_bboxes area margin ignore_borders p)
      tt path.
Proof.
  intros He. unfold main. symmetry.
  induction path as [|p path IH]; [done|]. cbn [foldM].
  rewrite main_step_falsy by done.
  destruct (process_file read_bboxes area margin ignore_borders p)
    as [t1 [[]|ex]]; simpl; [|done].
  rewrite IH.
  destruct (foldM (main_step read_bboxes area margin ignore_borders) e path)
    as [t2 [e'|ex]]; simpl; by rewrite ?app_nil_r.
Qed.

(** [export_squares] never raises and writes one array per stack of
    the dict, in the order of the dict, each with its margin. *)
Lemma export_squares_trace stacks fn :
  export_squares stacks fn
  = ((λ ms, Savez fn ms.1 ms.2) <$> stacks, OK tt).
Proof.
  unfold export_squares. generalize tt.
  induction stacks as [|[m s] stacks IH]; intros []; [done|]. cbn [foldM].
  unfold bind at 1, emit. rewrite IH. reflexivity.
Qed.

(** ** Coordinates of empty sites on the command line *)

Lemma parse_all_Parsed {A B} (f : A → parsed B) xs ys :
  parse_all f xs = Parsed ys ↔ Forall2 (λ x y, f x = Parsed y) xs ys.
Proof.
  revert ys. induction xs as [|x xs IH]; intros ys; simpl.
  - split; [by intros [= <-]; constructor|by inversion 1].
  - destruct (f x) as [y|e] eqn:Hx.
    + destruct (parse_all f xs) as [ys'|e] eqn:Hxs.
      * split.
        -- intros [= <-]. constructor; [done|by apply IH].
        -- inversion 1 as [|? y' ? ys'' Hy Hys]; subst.
           apply IH in Hys. congruence.
      * split; [done|]. inversion 1 as [|? y' ? ys'' Hy Hys]; subst.
        by apply IH in Hys.
    + split; [done|]. inversion 1; congruence.
Qed.

Lemma parse_all_Rejected {A B} (f : A → parsed B) xs e :
  parse_all f xs = Rejected e → ∃ x, x ∈ xs ∧ f x = Rejected e.
Proof.
  induction xs as [|x xs IH]; simpl; [done|].
  destruct (f x) as [y|e'] eqn:Hx.
  - destruct (parse_all f xs) as [ys'|e'']; [done|].
    intros [= ->]. destruct IH as (x' & Hin & Hx'); [done|].
    exists x'. split; [by right|done].
  - intros [= ->]. exists x. split; [left|done].
Qed.

Lemma parse_ints_spec int_of parts cc r :
  parse_ints int_of parts cc = Some r
  ↔ ∃ ns, int_of <$> parts = Some <$> ns ∧ r = cc ++ ns.
Proof.
  revert cc. induction parts as [|p parts IH]; intros cc; cbn [parse_ints].
  - split.
    + intros [= <-]. exists []. by rewrite app_nil_r.
    + intros (ns & Hns & ->). destruct ns; [|done]. by rewrite app_nil_r.
  - rewrite fmap_cons. destruct (int_of p) as [n|] eqn:Hp.
    + rewrite IH. split.
      * intros (ns & Hns & ->). exists (n :: ns).
        rewrite fmap_cons, Hns, <- app_assoc. done.
      * intros (ns & Hns & ->). destruct ns as [|n' ns]; [done|].
        rewrite fmap_cons in Hns. injection Hns as <- Hns. exists ns.
        by rewrite <- app_assoc.
    + split; [done|]. intros (ns & Hns & _). by destruct ns.
Qed.

Lemma parse_coord_Parsed int_of coord c :
  parse_coord int_of coord = Parsed c
  ↔ int_of <$> split ","%char coord = [Some c.1; Some c.2].
Proof.
  unfold parse_coord.
  destruct (parse_ints int_of (split "," coord) []) as [r|] eqn:Hr.
  - apply parse_ints_spec in Hr as (ns & Hns & ->). simpl. rewrite Hns.
    destruct ns as [|x [|y [|z ns]]]; simpl; try (split; [done|by intros [=]]).
    destruct c as [c1 c2]. simpl. split; intros [= -> ->]; done.
  - split; [done|]. intros H. exfalso.
    assert (parse_ints int_of (split "," coord) [] = Some [c.1; c.2]) as H'.
    { apply parse_ints_spec. exists [c.1; c.2]. by rewrite H. }
    congruence.
Qed.

(** X15. The coordinates of empty sites are accepted exactly when every
    piece between semicolons that is not empty consists of two parts
    separated by one comma, each an integer; the result has one pair per
    piece, in order. Otherwise the first offending piece is reported. *)
Theorem parse_empty_accepts int_of empty :
  (∀ cs,
     parse_empty int_of empty = Parsed cs
     ↔ Forall2 (λ piece c, int_of <$> split ","%char piece
                           = [Some c.1; Some c.2])
         (coord_pieces empty) cs)
  ∧ (∀ e,
       parse_empty int_of empty = Rejected e →
       ∃ piece, piece ∈ coord_pieces empty ∧ e = InvalidCoordinate piece
                ∧ ∀ c, int_of <$> split ","%char piece ≠ [Some c.1; Some c.2]).
Proof.
  unfold parse_empty. split.
  - intros cs. rewrite parse_all_Parsed. split; intros H;
      (eapply Forall2_impl; [exact H|]); intros piece c; apply parse_coord_Parsed.
  - intros e H. apply parse_all_Rejected in H as (piece & Hin & Hp).
    exists piece. split; [done|].
    assert (e = InvalidCoordinate piece) as ->.
    { unfold parse_coord in Hp.
      destruct (parse_ints int_of (split "," piece) [])
        as [[|x [|y [|z ns]]]|]; congruence. }
    split; [done|]. intros c Hc. apply parse_coord_Parsed in Hc. congruence.
Qed.

Lemma split_nonempty sep s : split sep s ≠ [].
Proof.
  destruct s as [|c s]; simpl; [done|].
  destruct (Ascii.eqb c sep); [done|]. by destruct (split sep s).
Qed.

Lemma split_app sep s1 s2 :
  split sep (s1 +:+ String sep s2) = split sep s1 ++ split sep s2.
Proof.
  induction s1 as [|c s1 IH]; simpl.
  - by rewrite Ascii.eqb_refl.
  - rewrite IH. destruct (Ascii.eqb c sep); [done|].
    pose proof (split_nonempty sep s1). by destruct (split sep s1).
Qed.

(** X16. Separating two groups of coordinates with a semicolon is the same
    as giving the option twice. *)
Theorem parse_empty_semicolon int_of c1 c2 rest :
  parse_empty int_of ((c1 +:+ (";" +:+ c2)) :: rest)
  = parse_empty int_of (c1 :: c2 :: rest).
Proof.
  unfold parse_empty, coord_pieces. do 2 f_equal. simpl.
  change (";" +:+ c2) with (String ";" c2).
  by rewrite split_app, <- app_assoc.
Qed.

(** ** Areas on the command line *)

(** X18. Without a resolution the area must be a number and is taken as it
    is, in px²; a predefined area name then raises "No resolution given".
    With a resolution, numbers take precedence over names for both, and
    the area is multiplied by the square of the resolution. *)
Theorem parse_area_cases float_of area_arg :
  (∀ q, parse_area float_of area_arg None = Parsed q
        ↔ float_of area_arg = Some q)
  ∧ (float_of area_arg = None → is_Some (table_get area_arg AREAS) →
     parse_area float_of area_arg None = Rejected NoResolution)
  ∧ (∀ r q,
       parse_area float_of area_arg (Some r) = Parsed q
       ↔ ∃ base res,
           (float_of area_arg = Some base
            ∨ float_of area_arg = None ∧ table_get area_arg AREAS = Some base)
           ∧ (float_of r = Some res
              ∨ float_of r = None ∧ table_get r RESOLUTIONS = Some res)
           ∧ q = (base * res ^ 2)%Q).
Proof.
  unfold parse_area.
  assert (bool_decide (@None string ≠ None) = false) as Hnn
    by (apply bool_decide_eq_false_2; intros H; by apply H).
  assert (bool_decide (@None string = None) = true) as Hn
    by by apply bool_decide_eq_true_2.
  split_and!.
  - intros q. destruct (float_of area_arg) as [a|]; rewrite ?Hnn, ?Hn; cbn -[table_get Qpower Qmult].
    + split; intros [= ->]; done.
    + destruct (table_get area_arg AREAS); rewrite ?Hnn, ?Hn; cbn -[table_get Qpower Qmult]; split; done.
  - intros -> [a Ha]. cbn -[table_get Qpower Qmult]. by rewrite Ha.
  - intros r q. cbn -[table_get Qpower Qmult].
    destruct (float_of area_arg) as [a|]; cbn -[table_get Qpower Qmult].
    + destruct (float_of r) as [res|]; cbn -[table_get Qpower Qmult].
      * split; [intros [= <-]; exists a, res; split_and!; by eauto|].
        intros (base & res' & [[= ->]|[? _]] & [[= ->]|[? _]] & ->); done.
      * destruct (table_get r RESOLUTIONS) as [res|]; cbn -[table_get Qpower Qmult].
        -- split; [intros [= <-]; exists a, res; split_and!; by eauto|].
           intros (base & res' & [[= ->]|[? _]] & [?|[_ [= ->]]] & ->); done.
        -- split; [done|].
           intros (base & res' & _ & [?|[_ ?]] & _); done.
    + destruct (table_get area_arg AREAS) as [a|]; cbn -[table_get Qpower Qmult].
      * destruct (float_of r) as [res|]; cbn -[table_get Qpower Qmult].
        -- split; [intros [= <-]; exists a, res; split_and!; by eauto|].
           intros (base & res' & [?|[_ [= ->]]] & [[= ->]|[? _]] & ->); done.
        -- destruct (table_get r RESOLUTIONS) as [res|]; cbn -[table_get Qpower Qmult].
           ++ split; [intros [= <-]; exists a, res; split_and!; by eauto|].
              intros (base & res' & [?|[_ [= ->]]] & [?|[_ [= ->]]] & ->); done.
           ++ split; [done|].
              intros (base & res' & _ & [?|[_ ?]] & _); done.
      * split; [done|]. intros (base & res' & [?|[_ ?]] & _); done.
Qed.

(** ** What the stacks show without ignore_borders *)

Lemma draw_frames_explained l s t tr s' :
  0 <= l →
  draw_frames false l s t = (tr, OK s') →
  ∀ f y x v,
    pixel s' f y x = Some v → v ≠ 0 →
    (∃ v0, pixel s f y x = Some v0 ∧ v0 ≠ 0)
    ∨ ∃ fr bb x1 x2 y1 y2,
        (fr, bb) ∈ t ∧ fr ≠ FrEllipsis
        ∧ extents bb (Some l) (Some l) true = (x1, x2, y1, y2)
        ∧ hits_border x1 x2 y1 y2 (wid s) (hgt s) = false
        ∧ selected (length (frames s)) (frame_selector fr) f = true
        ∧ y1 <= Z.of_nat y < y2 ∧ x1 <= Z.of_nat x < x2.
Proof.
  intros Hl. unfold draw_frames. revert s tr.
  induction t as [|[fr bb] t IH]; intros s tr H f y x v Hv Hne.
  - injection H as _ <-. left. eauto.
  - cbn [foldM] in H. apply bind_OK in H as (tr1 & s1 & tr2 & H1 & H2 & _).
    assert (grows s s1 ∧
            ((∃ v0, pixel s1 f y x = Some v0 ∧ v0 ≠ 0) →
             (∃ v0, pixel s f y x = Some v0 ∧ v0 ≠ 0)
             ∨ ∃ x1 x2 y1 y2,
                 fr ≠ FrEllipsis
                 ∧ extents bb (Some l) (Some l) true = (x1, x2, y1, y2)
                 ∧ hits_border x1 x2 y1 y2 (wid s) (hgt s) = false
                 ∧ selected (length (frames s)) (frame_selector fr) f = true
                 ∧ y1 <= Z.of_nat y < y2 ∧ x1 <= Z.of_nat x < x2))
      as [G Hstep].
    { assert (fr = FrEllipsis ∨ (fr ≠ FrEllipsis ∧
                insert_bb s bb (Some l) (Some l) fr true false = (tr1, OK s1)))
        as [->|[Hfr Hins]] by (destruct fr; eauto).
      { injection H1 as _ <-. split; [apply grows_refl|]. by left. }
      split; [by eapply insert_bb_grows|].
      destruct (extents bb (Some l) (Some l) true) as [[[x1 x2] y1] y2] eqn:E.
      pose proof (extents_side _ _ _ _ _ _ E) as [Hx Hy].
      revert Hins. insert_bb_outcomes E as a b c d C.
      destruct (hits_border x1 x2 y1 y2 (wid s) (hgt s)) eqn:Hhit.
      - intros [= _ <-]. by left.
      - intros Hset (v0 & Hv0 & Hne0).
        destruct (setitem_pixel _ _ _ _ _ _ _ _ _ Hset) as (_ & _ & _ & _ & Hpx).
        rewrite Hpx in Hv0.
        destruct (pixel s f y x) as [v1|] eqn:Hv1; [|discriminate].
        simpl in Hv0.
        destruct (painted s (frame_selector fr) y1 y2 x1 x2 f y x) eqn:Hp.
        + right. exists x1, x2, y1, y2. apply hits_border_false in Hhit as Hfit.
          unfold painted in Hp. apply andb_true_iff in Hp as [Hp Hxs].
          apply andb_true_iff in Hp as [Hsel Hys].
          apply in_slice_nonneg_iff in Hys; [|lia..].
          apply in_slice_nonneg_iff in Hxs; [|lia..].
          split_and!; try done; lia.
        + left. injection Hv0 as <-. by exists v1. }
    destruct (IH s1 tr2 H2 f y x v Hv Hne) as [Hold|Hnew].
    + destruct (Hstep Hold) as [?|(x1 & x2 & y1 & y2 & ? & ? & ? & ? & ? & ?)];
        [by left|].
      right. exists fr, bb, x1, x2, y1, y2.
      split; [left|]. split_and!; try done; lia.
    + destruct G as (Hh & Hw & Hn & _). rewrite Hh, Hw, Hn in Hnew.
      destruct Hnew as (fr' & bb' & x1 & x2 & y1 & y2 & Hin & Hrest).
      right. exists fr', bb', x1, x2, y1, y2. split; [by right|done].
Qed.

Lemma covered_mono area margin n h w its its' f y x :
  (∀ it, it ∈ its → it ∈ its') →
  covered area margin n h w its f y x → covered area margin n h w its' f y x.
Proof.
  intros Hsub (k & t & fr & bb & l & x1 & x2 & y1 & y2 & Hin & Hrest).
  exists k, t, fr, bb, l, x1, x2, y1, y2. split; [by apply Hsub|done].
Qed.

Lemma draw_roi_explained area st it tr st' (i : nat) m s' :
  draw_roi area false st it = (tr, OK st') →
  st' !! i = Some (m, s') →
  ∃ s, st !! i = Some (m, s) ∧ grows s s'
    ∧ ∀ f y x v,
        pixel s' f y x = Some v → v ≠ 0 →
        (∃ v0, pixel s f y x = Some v0 ∧ v0 ≠ 0)
        ∨ covered area m (length (frames s)) (hgt s) (wid s) [it] f y x.
Proof.
  intros H Hi. pose proof (draw_roi_grows _ _ _ _ _ _ H) as G.
  destruct (grows_all_lookup_r _ _ _ _ _ G Hi) as (s & Hi0 & Gs).
  exists s. split_and!; try done.
  intros f y x v Hv Hne. destruct it as [[k|] r]; simpl in H.
  - apply mapM_OK in H.
    destruct (Forall2_lookup_lr _ _ _ _ _ _ H Hi0 Hi) as [tr' Hm].
    apply draw_margin_OK in Hm as (l & t & tr'' & s'' & Hl & -> & Hd & [= <-]).
    pose proof (rint_sqrt_spec _ _ Hl) as (_ & Hl0 & _).
    destruct (draw_frames_explained l s t tr'' s' Hl0 Hd f y x v Hv Hne)
      as [?|(fr & bb & x1 & x2 & y1 & y2 & Hin & Hfr & E & Hrest)]; [by left|].
    right. exists k, t, fr, bb, l, x1, x2, y1, y2.
    split_and!; try done; try apply Hrest. left.
  - injection H as _ <-. rewrite Hi0 in Hi. injection Hi as <-. left. eauto.
Qed.

Lemma draw_rois_explained area its st tr st' (i : nat) m s' :
  foldM (draw_roi area false) st its = (tr, OK st') →
  st' !! i = Some (m, s') →
  ∃ s, st !! i = Some (m, s)
    ∧ ∀ f y x v,
        pixel s' f y x = Some v → v ≠ 0 →
        (∃ v0, pixel s f y x = Some v0 ∧ v0 ≠ 0)
        ∨ covered area m (length (frames s)) (hgt s) (wid s) its f y x.
Proof.
  revert st tr. induction its as [|it its IH]; intros st tr H Hi.
  - injection H as _ <-. exists s'. split; [done|]. intros; left; eauto.
  - cbn [foldM] in H. apply bind_OK in H as (tr1 & st1 & tr2 & H1 & H2 & _).
    destruct (IH st1 tr2 H2 Hi) as (s1 & Hi1 & Hrest).
    destruct (draw_roi_explained _ _ _ _ _ _ _ _ H1 Hi1)
      as (s & Hi0 & (Hh & Hw & Hn & _) & Hstep).
    exists s. split; [done|]. intros f y x v Hv Hne.
    destruct (Hrest f y x v Hv Hne) as [(v1 & Hv1 & Hne1)|Hcov].
    + destruct (Hstep f y x v1 Hv1 Hne1) as [?|Hcov]; [by left|].
      right. eapply covered_mono; [|exact Hcov].
      intros it' Hit'. apply list_elem_of_singleton in Hit' as ->. left.
    + right. rewrite Hn, Hh, Hw in Hcov. eapply covered_mono; [|exact Hcov].
      intros it' Hit'. by right.
Qed.

(** X20. Without [ignore_borders] the stack of a margin is exactly the
    union of the squares that fit: an entry holds 1 if and only if it lies,
    in a frame of the stack, in the square of some box of some track that
    is not stored under [None], under a frame key that is not [...] and
    selects that frame, and the square fits the image; every other entry
    holds 0. *)
Theorem stacks_are_union_of_squares area bboxes margins tr stacks :
  varying_margins_centered area bboxes margins false = (tr, OK stacks) →
  ∀ m s, (m, s) ∈ stacks →
    ∀ f y x : nat,
      (pixel s f y x = Some 1
       ↔ (f < length (frames s))%nat
         ∧ covered area m (length (frames s)) (hgt s) (wid s)
             (items bboxes) f y x)
      ∧ ((f < length (frames s))%nat →
         Z.of_nat y < hgt s → Z.of_nat x < wid s →
         pixel s f y x = Some 0 ∨ pixel s f y x = Some 1).
Proof.
  intros Hrun m s Hin f y x.
  assert (values_in (λ v, v = 0 ∨ v = 1) s) as Hbin.
  { assert (Forall (λ ms : Q * ndarray, values_in (λ v, v = 0 ∨ v = 1) ms.2)
              stacks) as Hall.
    { eapply compositor_inv; [| |exact Hrun].
      - intros n h w _ _ _ f' y' x' v' Hz. left. by eapply pixel_zero_stack_inv.
      - intros stack bb l fr tr' stack' Hs Hins.
        eapply insert_bb_values; [| |exact Hs|exact Hins]; [by right|done]. }
    rewrite Forall_forall in Hall. apply (Hall _ Hin). }
  unfold varying_margins_centered in Hrun.
  apply bind_OK in Hrun as (t1 & meta & t2 & _ & Hrun & _).
  apply bind_OK in Hrun as (t3 & st0 & t4 & Halloc & Hdraw & _).
  apply (alloc_stacks_OK (λ _, True)) in Halloc; [|by apply Forall_forall].
  apply list_elem_of_lookup in Hin as [i Hi].
  destruct (draw_rois_explained _ _ _ _ _ _ _ _ Hdraw Hi) as (s0 & Hi0 & Hexp).
  pose proof (draw_rois_grows _ _ _ _ _ _ Hdraw) as G.
  destruct (grows_all_lookup _ _ _ _ _ G Hi0) as (s1 & Hi1 & Gs).
  rewrite Hi in Hi1. injection Hi1 as <-.
  rewrite Forall_lookup in Halloc.
  destruct (Halloc _ _ Hi0) as (_ & Hz & Hn0 & Hh0 & Hw0). simpl in Hz.
  destruct Gs as (Hh & Hw & Hn & Hp).
  assert (∀ f y x : nat, (f < length (frames s))%nat → Z.of_nat y < hgt s →
            Z.of_nat x < wid s → is_Some (pixel s f y x)) as Hdef.
  { intros f' y' x' Hf Hy Hx. specialize (Hp f' y' x').
    rewrite Hz in Hp, Hn, Hh, Hw. simpl in Hn, Hh, Hw.
    rewrite length_replicate in Hn.
    rewrite pixel_zero_stack in Hp by lia. destruct Hp as (v' & -> & _). eauto. }
  split.
  - split.
    + intros Hv. split.
      * unfold pixel in Hv. destruct (frames s !! f) eqn:Hf; [|discriminate].
        by eapply lookup_lt_Some.
      * destruct (Hexp f y x 1 Hv ltac:(done)) as [(v0 & Hv0 & Hne0)|Hcov].
        -- rewrite Hz in Hv0. apply pixel_zero_stack_inv in Hv0. done.
        -- by rewrite Hn, Hh, Hw.
    + intros [Hf (k & t & fr & bb & l & x1 & x2 & y1 & y2 & Hit & Hbb & Hfr
                  & Hl & E & Hfit & Hsel & Hy & Hx)].
      destruct (draw_rois_paints _ _ _ _ _ _ _ _ _ _ _ Hdraw Hit Hi0)
        as (s' & Hi' & _ & Hpaint).
      rewrite Hi in Hi'. injection Hi' as <-.
      apply hits_border_false in Hfit as Hfit'.
      assert (hits_border x1 x2 y1 y2 (wid s0) (hgt s0) = false) as Hfit0
        by (by rewrite <- Hh, <- Hw).
      assert (selected (length (frames s0)) (frame_selector fr) f = true)
        as Hsel0 by (by rewrite <- Hn).
      assert (is_Some (pixel s0 f y x)) as Hsome.
      { rewrite Hz. rewrite Hz in Hn, Hh, Hw. simpl in Hn, Hh, Hw.
        rewrite length_replicate in Hn.
        rewrite pixel_zero_stack; [by eexists|lia..]. }
      destruct (Hpaint l fr bb x1 x2 y1 y2 Hl Hbb Hfr E Hfit0 f y x Hsel0 Hy Hx
                  Hsome) as (v & Hv & Hne).
      rewrite Hv. f_equal. destruct (Hbin f y x v Hv); [done|done].
  - intros Hf Hy Hx. destruct (Hdef f y x Hf Hy Hx) as [v Hv].
    rewrite Hv. destruct (Hbin f y x v Hv) as [->| ->]; auto.
Qed.

(** X21. In either mode, every square that fits is drawn: for a box of a
    track that is not stored under [None], under a frame key that is not
    [...], every entry of its footprint in every frame that the key
    selects is not 0 in the returned stack of the margin. *)
Theorem fitting_squares_drawn area bboxes margins ignore_borders tr stacks
    k t fr bb m s l x1 x2 y1 y2 :
  varying_margins_centered area bboxes margins ignore_borders
    = (tr, OK stacks) →
  (Some k, Track t) ∈ items bboxes → (fr, bb) ∈ t → fr ≠ FrEllipsis →
  (m, s) ∈ stacks →
  rint_sqrt ((1 + m) * area) = Some l →
  extents bb (Some l) (Some l) true = (x1, x2, y1, y2) →
  0 <= x1 ∧ x2 <= wid s ∧ 0 <= y1 ∧ y2 <= hgt s →
  ∀ f y x : nat,
    (f < length (frames s))%nat →
    selected (length (frames s)) (frame_selector fr) f = true →
    y1 <= Z.of_nat y < y2 → x1 <= Z.of_nat x < x2 →
    ∃ v, pixel s f y x = Some v ∧ v ≠ 0.
Proof.
  intros Hrun Hit Hbb Hfr Hs Hl E Hfit f y x Hf Hsel Hy Hx.
  unfold varying_margins_centered in Hrun.
  apply bind_OK in Hrun as (t1 & meta & t2 & _ & Hrun & _).
  apply bind_OK in Hrun as (t3 & st0 & t4 & Halloc & Hdraw & _).
  apply (alloc_stacks_OK (λ _, True)) in Halloc; [|by apply Forall_forall].
  apply list_elem_of_lookup in Hs as [i Hi].
  pose proof (draw_rois_grows _ _ _ _ _ _ Hdraw) as G.
  destruct (grows_all_lookup_r _ _ _ _ _ G Hi) as (s0 & Hi0 & (Hh & Hw & Hn & _)).
  rewrite Forall_lookup in Halloc.
  destruct (Halloc _ _ Hi0) as (_ & Hz & Hn0 & Hh0 & Hw0). simpl in Hz.
  destruct (draw_rois_paints _ _ _ _ _ _ _ _ _ _ _ Hdraw Hit Hi0)
    as (s' & Hi' & _ & Hpaint).
  rewrite Hi in Hi'. injection Hi' as <-.
  assert (hits_border x1 x2 y1 y2 (wid s0) (hgt s0) = false) as Hfit0
    by (apply hits_border_false; by rewrite <- Hh, <- Hw).
  assert (selected (length (frames s0)) (frame_selector fr) f = true)
    as Hsel0 by (by rewrite <- Hn).
  apply (Hpaint l fr bb x1 x2 y1 y2 Hl Hbb Hfr E Hfit0 f y x Hsel0 Hy Hx).
  rewrite Hz. rewrite Hz in Hh, Hw, Hn. simpl in Hh, Hw, Hn.
  rewrite length_replicate in Hn.
  rewrite pixel_zero_stack; [by eexists|lia..].
Qed.

(** ** Instances of the further properties *)

Lemma site_run :
  varying_margins_centered 4
    [meta_only; [(Some 0, Track [(FrNone, empty_box 2 2 (3, 3))])]]
    [0%Q] false
  = ([], OK [(0%Q, site_stack)]).
Proof. reflexivity. Qed.

Lemma stacks_values_witness :
  pixel site_stack 0 2 2 = Some 1
  ∧ (1 = 0 ∨ 1 = 1 ∨ (false = true ∧ 1 = 2)).
Proof.
  assert (pixel site_stack 0 2 2 = Some 1) as Hv by reflexivity.
  split; [exact Hv|].
  apply (stacks_values _ _ _ _ _ _ site_run 0%Q site_stack 0%nat 2%nat 2%nat 1
           ltac:(left) Hv).
Defined.

Lemma stacks_shape_witness :
  ∃ first rest m,
    [meta_only; [(Some 0, Track [(FrNone, empty_box 2 2 (3, 3))])]]
      = first :: rest
    ∧ dict_get None first = Some (Meta m)
    ∧ ∀ mg s, (mg, s) ∈ [(0%Q, site_stack)] →
        shape s = (n_frames m, height m, width m) ∧ wf_stack s.
Proof. exact (stacks_shape _ _ _ _ _ _ site_run). Defined.

Lemma stacks_keys_witness :
  (∀ mg, mg ∈ [0%Q] → ∃ k s, (k, s) ∈ [(0%Q, site_stack)] ∧ (k == mg)%Q)
  ∧ (∀ k s, (k, s) ∈ [(0%Q, site_stack)] → k ∈ [0%Q])
  ∧ (∀ (i j : nat) k1 s1 k2 s2,
       (i < j)%nat → [(0%Q, site_stack)] !! i = Some (k1, s1) →
       [(0%Q, site_stack)] !! j = Some (k2, s2) → ¬ (k1 == k2)%Q).
Proof. exact (stacks_keys _ _ _ _ _ _ site_run). Defined.

Lemma insert_bb_raises_witness :
  extents box_inside (Some 2) (Some 2) true = (1, 3, 1, 3)
  ∧ (insert_bb (blank 1) box_inside (Some 2) (Some 2) (FrInt 5) true false).2
    = Raise IndexError.
Proof.
  split; [reflexivity|].
  destruct (insert_bb_raises (blank 1) box_inside (Some 2) (Some 2) (FrInt 5)
              true false 1 3 1 3 eq_refl) as (_ & Hraise & _).
  apply Hraise. split.
  - unfold valid_frame. simpl. lia.
  - intros [H _]. discriminate H.
Defined.

Lemma insert_bb_clipped_witness :
  wf_stack (blank 1)
  ∧ extents box_inside (Some 6) (Some 6) true = (-1, 5, -1, 5)
  ∧ ∃ stack',
      (insert_bb (blank 1) box_inside (Some 6) (Some 6) FrNone true true).2
      = OK stack'
      ∧ pixel stack' 0 0 0 = Some 2.
Proof.
  assert (wf_stack (blank 1)) as Hwf by (apply (wf_zero_stack 1 4 6); lia).
  split; [exact Hwf|]. split; [reflexivity|].
  destruct (insert_bb_clipped (blank 1) box_inside (Some 6) (Some 6) FrNone true
              (-1) 5 (-1) 5 Hwf I eq_refl ltac:(left; lia) ltac:(lia) ltac:(lia))
    as (s' & Hs' & _ & Hpx).
  exists s'. rewrite Hs'. split; [reflexivity|].
  apply (Hpx 0%nat 0%nat 0%nat); [|simpl; lia].
  split; [reflexivity|]. simpl. lia.
Defined.

Lemma main_second_file_raises_witness :
  main (λ _, OK meta_only) ["a.pickle"; "b.pickle"; "c.pickle"] 4 [0%Q] false
    (PyCoords [(3, 3)])
  = ([Savez "a.pickle" 0 site_stack], Raise TypeError)
  ∧ main (λ p, if String.eqb p "a.pickle" then OK meta_only else Raise OSError)
      ["a.pickle"; "b.pickle"; "c.pickle"] 4 [0%Q] false (PyCoords [(3, 3)])
    = ([Savez "a.pickle" 0 site_stack], Raise OSError).
Proof.
  split.
  - apply (main_second_file_raises (λ _, OK meta_only) 4 [0%Q] false [(3, 3)]
             "a.pickle" "b.pickle" ["c.pickle"]
             [Savez "a.pickle" 0 site_stack]
             (PyDict [(Some 0, Track [(FrNone, empty_box 2 2 (3, 3))])]));
      [done|reflexivity].
  - apply (main_second_file_raises
             (λ p, if String.eqb p "a.pickle" then OK meta_only
                   else Raise OSError)
             4 [0%Q] false [(3, 3)]
             "a.pickle" "b.pickle" ["c.pickle"]
             [Savez "a.pickle" 0 site_stack]
             (PyDict [(Some 0, Track [(FrNone, empty_box 2 2 (3, 3))])]));
      [done|reflexivity].
Defined.

Lemma compositor_returns_witness :
  ∃ tr stacks,
    varying_margins_centered 400
      [one_cell 6 4 0 0 1 2 box_inside box_inside box_inside; []]
      [0%Q; (1 # 4)%Q] true
    = (tr, OK stacks).
Proof.
  apply (compositor_returns 400
           (one_cell 6 4 0 0 1 2 box_inside box_inside box_inside) [[]]
           [0%Q; (1 # 4)%Q] true {| n_frames := 3; width := 6; height := 4 |});
    try reflexivity; simpl; try lia.
  - repeat constructor; unfold Qle; simpl; lia.
  - unfold items, one_cell. simpl. repeat constructor.
    unfold valid_item. simpl. eexists. split; [reflexivity|].
    repeat constructor; unfold valid_frame; simpl; lia.
Defined.

Lemma stored_area_close_witness :
  empty_size 30 = Some (5, 6)
  ∧ (inject_Z (5 * 6) - 30 <= inject_Z 5 / 2)%Q
  ∧ (30 - inject_Z (5 * 6) <= inject_Z 5 / 2)%Q.
Proof.
  split; [reflexivity|]. apply (stored_area_close 30 5 6). reflexivity.
Defined.

Lemma synthetic_square_center_witness :
  empty_size 9 = Some (3, 3)
  ∧ extents (empty_box 3 3 (5, 4)) (Some 3) (Some 3) true = (5, 8, 3, 6).
Proof.
  split; [reflexivity|].
  destruct (synthetic_square_center 9 0 5 4 3 3 (Some 0) (empty_box 3 3 (5, 4))
              3 5 8 3 6 eq_refl eq_refl eq_refl) as (_ & _ & _ & _).
  reflexivity.
Defined.

Lemma bounds_centered_midpoint_witness :
  extents box_inside (Some 6) None false = (0, 6, 1, 4)
  ∧ 6 - 0 = 6 ∧ 4 - 1 = 3
  ∧ 0 <= 0 + 6 - (x_min box_inside + (x_max box_inside + 1)) <= 1
  ∧ 0 <= 1 + 4 - (y_min box_inside + (y_max box_inside + 1)) <= 1.
Proof.
  split; [reflexivity|].
  apply (bounds_centered_midpoint box_inside (Some 6) None 0 6 1 4). reflexivity.
Defined.

Lemma main_without_empty_sites_witness :
  truthy (PyCoords []) = false
  ∧ main (λ _, OK meta_only) ["a.pickle"; "b.pickle"] 4 [0%Q] false (PyCoords [])
    = foldM (λ _ p, process_file (λ _, OK meta_only) 4 [0%Q] false p) tt
        ["a.pickle"; "b.pickle"].
Proof.
  split; [reflexivity|].
  apply (main_without_empty_sites (λ _, OK meta_only) ["a.pickle"; "b.pickle"]
           4 [0%Q] false (PyCoords [])). reflexivity.
Defined.

Lemma insert_bb_twice_witness :
  ∃ tr stack',
    insert_bb (blank 1) box_inside (Some 6) (Some 6) FrNone true true
      = (tr, OK stack')
    ∧ insert_bb stack' box_inside (Some 6) (Some 6) FrNone true true
      = (tr, OK stack').
Proof.
  do 2 eexists. split; [reflexivity|].
  apply (insert_bb_twice (blank 1) box_inside (Some 6) (Some 6) FrNone true true).
  reflexivity.
Defined.

Lemma stacks_are_union_of_squares_witness :
  pixel site_stack 1 3 2 = Some 1
  ∧ (1 < length (frames site_stack))%nat
  ∧ covered 4 0 (length (frames site_stack)) (hgt site_stack) (wid site_stack)
      (items [meta_only; [(Some 0, Track [(FrNone, empty_box 2 2 (3, 3))])]])
      1 3 2.
Proof.
  assert (pixel site_stack 1 3 2 = Some 1) as Hv by reflexivity.
  split; [exact Hv|].
  destruct (stacks_are_union_of_squares _ _ _ _ _ site_run 0%Q site_stack
              ltac:(left) 1%nat 3%nat 2%nat) as [[Hto _] _].
  exact (Hto Hv).
Defined.

Lemma fitting_squares_drawn_witness :
  ∃ v, pixel site_stack 0 3 3 = Some v ∧ v ≠ 0.
Proof.
  apply (fitting_squares_drawn _ _ _ _ _ _ 0 [(FrNone, empty_box 2 2 (3, 3))]
           FrNone (empty_box 2 2 (3, 3)) 0%Q site_stack 2 2 4 2 4 site_run);
    try reflexivity; try done; try (simpl; lia).
  - unfold items. simpl. right. left.
  - left.
  - left.
Defined.
